(** * slackdump: event log player, sandboxed directory adapter, export pipeline

    A shallow embedding of the Go sources

    - [processors] (event log [Player]: [indexRecords], [tryGetEvent],
      [hasMore], [Reset], [Replay], [emit]),
    - [fsadapter/directory.go] ([Directory.Create], [ensureSubdir], [mkdirAll]),
    - [cmd/slackdump/internal/export/v3.go] ([exportV3] and its error channel),
    - [app] ([dump.Dump], [dump.dumpOne]),

    together with the properties the specification states about them.

    Go maps are finite maps ([gmap]), Go slices are lists, [int64] offsets are
    integers of [Z], and every function that mutates its receiver takes the
    receiver's state and returns the new one. *)

From Stdlib Require Import Ascii Sorted.
From Equations Require Import Equations.
From stdpp Require Import gmap strings list fin_maps.

Set Default Proof Using "Type".

(** ** Errors *)

(** The sentinel errors the sources declare or compare against, the errors
    built by [errors.New] and [fmt.Errorf("...%w", err)], and the failures of
    the library calls.  A runtime panic unwinds through the same return paths
    as an error in every function modelled here, so it is carried as a
    distinguished error value. *)
Inductive error : Type :=
| ErrNotFound                        (* processors: errors.New("not found") *)
| ErrExhausted                       (* processors: errors.New("exhausted") *)
| io_EOF                             (* io.EOF *)
| json_SyntaxError                   (* any non-EOF failure of json Decoder.Decode *)
| os_ErrInvalid                      (* Seek to a negative position *)
| ErrIllegalDir                      (* fsadapter *)
| ErrSkip                            (* config.ErrSkip *)
| errors_New (msg : string)
| fmt_Errorf (format : string) (arg : string) (wrapped : error)
| runtime_panic (msg : string).

#[global] Instance error_eq_dec : EqDecision error.
Proof. solve_decision. Defined.

(** [errors.Is err target]: follows the [%w] chain. *)
Fixpoint errors_Is (err target : error) : bool :=
  if decide (err = target) then true
  else match err with
       | fmt_Errorf _ _ w => errors_Is w target
       | _ => false
       end.

Inductive result (A : Type) : Type :=
| Ok (a : A)
| Err (e : error).
Arguments Ok {A} a.
Arguments Err {A} e.

(** ** Events *)

(** The part of [slack.Message] and [slack.File] (library types) that the
    event log addresses records by. *)
Record Message : Type := mkMessage {
  Timestamp : string;
  Text : string
}.

Record File : Type := mkFile {
  FileID : string;
  FileName : string
}.

(** Modelled from the spec: the [Event] record and its type tag are declared
    in a file that is not among the sources.  The tags are the five the data
    model lists; the fields are those [emit] reads plus the two listing
    payloads. *)
Inductive EventType : Type :=
| EventMessages
| EventThreadMessages
| EventFiles
| EventChannelListing
| EventUserListing.

#[global] Instance EventType_eq_dec : EqDecision EventType.
Proof. solve_decision. Defined.

Record Event : Type := mkEvent {
  Type_ : EventType;
  ChannelID : string;
  Parent : option Message;           (* pointer to slack.Message, nil when absent *)
  IsThreadMessage : bool;
  Messages : list Message;
  Files : list File;
  Channels : list string;
  Users : list string
}.

(** ** The record stream *)

(** The log is a sequence of self-delimiting encoded records.  A frame is one
    record as it lies in the file: the bytes it occupies (leading white space
    included) and what the JSON decoder makes of them; [None] is a record that
    does not decode. *)
Record Frame : Type := mkFrame {
  payload : option Event;
  size : positive
}.

(** [io.ReadSeeker]: the file content and the current position. *)
Record ReadSeeker : Type := mkReadSeeker {
  frames : list Frame;
  pos : Z
}.

(** [rs.Seek(offset, io.SeekStart)]. *)
Definition Seek (offset : Z) (rs : ReadSeeker) : result Z * ReadSeeker :=
  if decide (offset < 0)%Z then (Err os_ErrInvalid, rs)
  else (Ok offset, {| frames := frames rs; pos := offset |}).

(** What a reader positioned at byte [p] has in front of it: the remaining
    records when [p] is a record boundary (none at or past the end of the
    data), and [None] when [p] lies inside a record. *)
Fixpoint locate (fs : list Frame) (p : Z) : option (list Frame) :=
  match fs with
  | [] => Some []
  | f :: rest =>
      if decide (p = 0)%Z then Some fs
      else if decide (p < Z.pos (size f))%Z then None
      else locate rest (p - Z.pos (size f))
  end.

(** [json.Decoder]: the stream it reads from, the input still in front of it,
    and [InputOffset], counted from where the decoder started. *)
Record Decoder : Type := mkDecoder {
  src : ReadSeeker;
  pending : option (list Frame);
  InputOffset : Z
}.

Definition NewDecoder (rs : ReadSeeker) : Decoder :=
  {| src := rs; pending := locate (frames rs) (pos rs); InputOffset := 0 |}.

(** [dec.Decode(&event)]. *)
Definition Decode (dec : Decoder) : result Event * Decoder :=
  match pending dec with
  | None => (Err json_SyntaxError, dec)
  | Some [] => (Err io_EOF, dec)
  | Some (f :: rest) =>
      match payload f with
      | None => (Err json_SyntaxError, dec)
      | Some event =>
          (Ok event,
           {| src := {| frames := frames (src dec);
                        pos := pos (src dec) + Z.pos (size f) |};
              pending := Some rest;
              InputOffset := InputOffset dec + Z.pos (size f) |})
      end
  end.

(** Number of records the decoder can still return. *)
Definition remaining (dec : Decoder) : nat :=
  from_option length 0 (pending dec).

Definition inspect {A} (a : A) : {b | a = b} := exist _ a eq_refl.

(** Modelled from the spec: the Recorder (not among the sources) appends each
    event as the next record of the stream. *)
Definition Append (log : list Frame) (e : Event) (n : positive) : list Frame :=
  log ++ [{| payload := Some e; size := n |}].

(** The log written by appending the events of [w], each with the number of
    bytes its encoding takes. *)
Definition recorded (w : list (Event * positive)) : list Frame :=
  foldl (λ log en, Append log en.1 en.2) [] w.

(** A freshly opened log. *)
Definition open (fs : list Frame) : ReadSeeker := {| frames := fs; pos := 0 |}.

(** ** Player *)

Section Player.

(** [Event.ID] is declared with [Event], outside the sources: the player is
    modelled for an arbitrary key function. *)
Variable ID : Event → string.

Record Player : Type := mkPlayer {
  rs : ReadSeeker;
  pointer : gmap string nat;         (* current event pointers *)
  idx : gmap string (list Z)
}.

Definition set_rs (r : ReadSeeker) (p : Player) : Player :=
  {| rs := r; pointer := pointer p; idx := idx p |}.

Definition set_pointer (s : gmap string nat) (p : Player) : Player :=
  {| rs := rs p; pointer := s; idx := idx p |}.

(** The loop of [indexRecords]. *)
Equations? indexLoop (dec : Decoder) (idx : gmap string (list Z))
  : result (gmap string (list Z)) * Decoder by wf (remaining dec) lt :=
indexLoop dec idx with inspect (Decode dec) := {
  | exist _ (Ok event, dec') e =>
      indexLoop dec' (<[ID event := (idx !!! ID event) ++ [InputOffset dec]]> idx);
  | exist _ (Err err, dec') _ =>
      if decide (err = io_EOF) then (Ok idx, dec') else (Err err, dec') }.
Proof.
  revert e. unfold Decode, remaining.
  destruct (pending dec) as [[|f rest]|]; try discriminate.
  destruct (payload f); try discriminate.
  intros [= _ <-]. simpl. lia.
Qed.

Definition indexRecords (rs : ReadSeeker)
  : result (gmap string (list Z)) * ReadSeeker :=
  match indexLoop (NewDecoder rs) ∅ with
  | (Err err, dec) => (Err err, src dec)
  | (Ok idx, dec) =>
      match Seek 0 (src dec) with
      | (Err err, rs) => (Err err, rs)
      | (Ok _, rs) => (Ok idx, rs)
      end
  end.

Definition NewPlayer (rs : ReadSeeker) : result Player :=
  match indexRecords rs with
  | (Err err, _) => Err err
  | (Ok idx, rs) => Ok {| rs := rs; idx := idx; pointer := ∅ |}
  end.

Definition tryGetEvent (id : string) (p : Player) : result Event * Player :=
  match idx p !! id with
  | None => (Err ErrNotFound, p)
  | Some offsets =>
      let ptr := default 0 (pointer p !! id) in
      let p := if pointer p !! id is None
               then set_pointer (<[id := 0]> (pointer p)) p else p in
      if decide (length offsets ≤ ptr) then (Err io_EOF, p)
      else
        (* ptr < len(offsets): the index expression is in range *)
        match Seek (offsets !!! ptr) (rs p) with
        | (Err err, r) => (Err err, set_rs r p)
        | (Ok _, r) =>
            match Decode (NewDecoder r) with
            | (Err err, dec) => (Err err, set_rs (src dec) p)
            | (Ok event, dec) =>
                (Ok event,
                 set_pointer (<[id := S (pointer p !!! id)]> (pointer p))
                   (set_rs (src dec) p))
            end
        end
  end.

Definition hasMore (id : string) (p : Player) : bool * Player :=
  match idx p !! id with
  | None => (false, p)
  | Some offsets =>
      let ptr := default 0 (pointer p !! id) in
      let p := if pointer p !! id is None
               then set_pointer (<[id := 0]> (pointer p)) p else p in
      (bool_decide (ptr < length offsets), p)
  end.

Definition Player_Messages (channelID : string) (p : Player)
  : result (list Message) * Player :=
  match tryGetEvent channelID p with
  | (Err err, p) => (Err err, p)
  | (Ok event, p) => (Ok (Messages event), p)
  end.

Definition HasMoreMessages (channelID : string) (p : Player) : bool * Player :=
  hasMore channelID p.

Definition Reset (p : Player) : option error * Player :=
  let p := set_pointer ∅ p in
  match Seek 0 (rs p) with
  | (Err err, r) => (Some err, set_rs r p)
  | (Ok _, r) => (None, set_rs r p)
  end.

(** *** What the index and the cursors hold *)

(** The offsets at which the records keyed [id] start, for records laid out
    from byte [base] on. *)
Fixpoint offsets_from (base : Z) (fs : list Frame) (id : string) : list Z :=
  match fs with
  | [] => []
  | f :: rest =>
      match payload f with
      | Some e => if decide (ID e = id) then [base] else []
      | None => []
      end ++ offsets_from (base + Z.pos (size f)) rest id
  end.

(** The events keyed [id], in stream order. *)
Definition events_with (fs : list Frame) (id : string) : list Event :=
  filter (λ e, ID e = id) (omap payload fs).

Definition decodable (fs : list Frame) : Prop :=
  Forall (λ f, is_Some (payload f)) fs.

(** The position of the cursor for [id]: an absent entry reads as zero. *)
Definition cursor (id : string) (p : Player) : nat := default 0 (pointer p !! id).

(** [n] rounds of asking [hasMore] and then retrieving the next event. *)
Fixpoint retrieveAll (id : string) (n : nat) (p : Player)
  : list (bool * result Event) * Player :=
  match n with
  | 0 => ([], p)
  | S n =>
      let '(more, p) := hasMore id p in
      let '(r, p) := tryGetEvent id p in
      let '(rest, p) := retrieveAll id n p in
      ((more, r) :: rest, p)
  end.

(** Calls on a player, and the player they leave. *)
Inductive PlayerOp : Type :=
| OpTryGetEvent (id : string)
| OpHasMore (id : string)
| OpReset.

Definition run_op (p : Player) (op : PlayerOp) : Player :=
  match op with
  | OpTryGetEvent id => (tryGetEvent id p).2
  | OpHasMore id => (hasMore id p).2
  | OpReset => (Reset p).2
  end.

(** *** Replay *)

(** The [Channeler] interface the replay drives. *)
Class Channeler (C : Type) : Type := {
  Channeler_Messages : string → list Message → C → option error * C;
  Channeler_ThreadMessages :
    string → Message → list Message → C → option error * C;
  Channeler_Files : string → Message → bool → list File → C → option error * C
}.

Section Replay.
Context {C : Type} `{!Channeler C}.

Definition nil_dereference : error :=
  runtime_panic "invalid memory address or nil pointer dereference".

(** [emit] emits the event to the channeler.  [*evt.Parent] panics on a nil
    [Parent]; an event type without a case falls through the switch. *)
Definition emit (p : Player) (c : C) (evt : Event) : option error * C :=
  match Type_ evt with
  | EventMessages => Channeler_Messages (ChannelID evt) (Messages evt) c
  | EventThreadMessages =>
      match Parent evt with
      | None => (Some nil_dereference, c)
      | Some parent =>
          Channeler_ThreadMessages (ChannelID evt) parent (Messages evt) c
      end
  | EventFiles =>
      match Parent evt with
      | None => (Some nil_dereference, c)
      | Some parent =>
          Channeler_Files (ChannelID evt) parent (IsThreadMessage evt)
            (Files evt) c
      end
  | _ => (None, c)
  end.

(** The loop of [Replay]. *)
Equations? replayLoop (p : Player) (dec : Decoder) (c : C)
  : option error * Decoder * C by wf (remaining dec) lt :=
replayLoop p dec c with inspect (Decode dec) := {
  | exist _ (Err err, dec') _ =>
      if decide (err = io_EOF) then (None, dec', c) else (Some err, dec', c);
  | exist _ (Ok evt, dec') e with emit p c evt => {
    | (Some err, c') => (Some err, dec', c');
    | (None, c') => replayLoop p dec' c' } }.
Proof.
  revert e. unfold Decode, remaining.
  destruct (pending dec) as [[|f rest]|]; try discriminate.
  destruct (payload f); try discriminate.
  intros [= _ <-]. simpl. lia.
Qed.

(** [Replay]: the deferred [p.rs.Seek(0, io.SeekStart)] runs on every way out
    of the loop. *)
Definition Replay (p : Player) (c : C) : option error * Player * C :=
  match Reset p with
  | (Some err, p) => (Some err, p, c)
  | (None, p) =>
      let '(err, dec, c) := replayLoop p (NewDecoder (rs p)) c in
      (err, set_rs (Seek 0 (src dec)).2 p, c)
  end.

End Replay.

End Player.

(** The calls a [Channeler] can receive. *)
Inductive Call : Type :=
| CallMessages (channelID : string) (mm : list Message)
| CallThreadMessages (channelID : string) (parent : Message) (mm : list Message)
| CallFiles (channelID : string) (parent : Message) (isThread : bool)
    (ff : list File).

(** A consumer that accepts every call and keeps the calls it received, in
    order. *)
#[global] Instance tape_Channeler : Channeler (list Call) := {|
  Channeler_Messages ch mm tape := (None, tape ++ [CallMessages ch mm]);
  Channeler_ThreadMessages ch par mm tape :=
    (None, tape ++ [CallThreadMessages ch par mm]);
  Channeler_Files ch par th ff tape := (None, tape ++ [CallFiles ch par th ff])
|}.

(** The call [emit] makes for an event: none for an event type without a case
    in its switch. *)
Definition call_of (evt : Event) : option Call :=
  match Type_ evt, Parent evt with
  | EventMessages, _ => Some (CallMessages (ChannelID evt) (Messages evt))
  | EventThreadMessages, Some parent =>
      Some (CallThreadMessages (ChannelID evt) parent (Messages evt))
  | EventFiles, Some parent =>
      Some (CallFiles (ChannelID evt) parent (IsThreadMessage evt) (Files evt))
  | _, _ => None
  end.

(** The event types [emit] has a case for. *)
Definition dispatched (evt : Event) : bool :=
  match Type_ evt with
  | EventMessages | EventThreadMessages | EventFiles => true
  | _ => false
  end.

(** A thread-scoped event carries its parent message. *)
Definition has_parent (evt : Event) : bool :=
  match Type_ evt with
  | EventThreadMessages | EventFiles => bool_decide (is_Some (Parent evt))
  | _ => true
  end.

(** A call delivered to a consumer. *)
Definition deliver {C : Type} `{!Channeler C} (c : C) (k : Call) : option error * C :=
  match k with
  | CallMessages ch mm => Channeler_Messages ch mm c
  | CallThreadMessages ch par mm => Channeler_ThreadMessages ch par mm c
  | CallFiles ch par th ff => Channeler_Files ch par th ff c
  end.

(** Modelled from the spec: the event identity.  A main-channel event is keyed
    by its channel identifier; a thread-scoped event (one with a parent
    message) by the channel identifier composed with the parent timestamp. *)
Definition threadID (channelID threadTS : string) : string :=
  channelID +:+ ":" +:+ threadTS.

Definition Event_ID (e : Event) : string :=
  match Parent e with
  | Some parent => threadID (ChannelID e) (Timestamp parent)
  | None => ChannelID e
  end.

Definition Player_Thread (channelID threadTS : string) (p : Player)
  : result (list Message) * Player :=
  match tryGetEvent (threadID channelID threadTS) p with
  | (Err err, p) => (Err err, p)
  | (Ok event, p) => (Ok (Messages event), p)
  end.

Definition HasMoreThreads (channelID threadTS : string) (p : Player)
  : bool * Player :=
  hasMore (threadID channelID threadTS) p.

(** ** Paths and the file system *)

(** The functions of [path/filepath] and [strings] (Go standard library, Unix
    separator) that [fsadapter] calls, on path elements. *)

Definition Separator : ascii := "/"%char.

(** [strings.Split(s, "/")]. *)
Fixpoint split_from (cur s : string) : list string :=
  match s with
  | EmptyString => [cur]
  | String c s' =>
      if decide (c = Separator) then cur :: split_from "" s'
      else split_from (cur +:+ String c "") s'
  end.

Definition split (s : string) : list string := split_from "" s.

(** [strings.Join(elems, "/")]. *)
Fixpoint join (elems : list string) : string :=
  match elems with
  | [] => ""
  | [e] => e
  | e :: rest => e +:+ "/" +:+ join rest
  end.

Definition rooted (s : string) : bool :=
  match s with
  | String c _ => bool_decide (c = Separator)
  | EmptyString => false
  end.

(** One element of the path pushed on the elements kept so far (last first),
    by the rules of [filepath.Clean]: an empty element or [.] is dropped,
    [..] removes the element before it unless there is none to remove, and
    is dropped at the root. *)
Definition clean_push (isRooted : bool) (kept : list string) (e : string)
  : list string :=
  if decide (e = "" ∨ e = ".") then kept
  else if decide (e = "..") then
    match kept with
    | top :: below => if decide (top = "..") then e :: kept else below
    | [] => if isRooted then [] else [e]
    end
  else e :: kept.

(** [filepath.Clean]. *)
Definition filepath_Clean (path : string) : string :=
  let kept := reverse (foldl (clean_push (rooted path)) [] (split path)) in
  if rooted path then "/" +:+ join kept
  else if decide (kept = []) then "." else join kept.

(** [filepath.Join] of two elements. *)
Definition filepath_Join (a b : string) : string :=
  if decide (a = "") then (if decide (b = "") then "" else filepath_Clean b)
  else filepath_Clean (a +:+ "/" +:+ b).

(** The text of [path] up to and including its last separator. *)
Definition upto_last_separator (path : string) : string :=
  let elems := split path in
  join (take (length elems - 1) elems ++ [""]).

(** [filepath.Dir]. *)
Definition filepath_Dir (path : string) : string :=
  filepath_Clean (upto_last_separator path).

(** The elements [filepath.Rel] walks over in a cleaned path: none for the
    empty path, and the root alone is one empty element. *)
Definition rel_elements (cleaned : string) : list string :=
  if decide (cleaned = "") then []
  else if decide (cleaned = "/") then [""]
  else split cleaned.

(** The first differing elements of two element lists and what follows. *)
Fixpoint strip_common (base targ : list string) : list string * list string :=
  match base, targ with
  | b :: base', t :: targ' =>
      if decide (b = t) then strip_common base' targ' else (base, targ)
  | _, _ => (base, targ)
  end.

(** [filepath.Rel]. *)
Definition filepath_Rel (basepath targpath : string) : result string :=
  let base := filepath_Clean basepath in
  let targ := filepath_Clean targpath in
  if decide (targ = base) then Ok "."
  else
    let base := if decide (base = ".") then "" else base in
    if negb (eqb (rooted base) (rooted targ))
    then Err (errors_New ("Rel: can't make " +:+ targpath +:+ " relative to "
                            +:+ basepath))
    else
      let '(brest, trest) := strip_common (rel_elements base) (rel_elements targ) in
      match brest, trest with
      | b :: _, _ :: _ =>
          if decide (b = "..")
          then Err (errors_New ("Rel: can't make " +:+ targpath
                                  +:+ " relative to " +:+ basepath))
          else Ok (join (replicate (length brest) ".." ++ trest))
      | _ :: _, [] => Ok (join (replicate (length brest) ".."))
      | [], _ => Ok (join trest)
      end.

(** [strings.HasPrefix]. *)
Definition strings_HasPrefix (s prefix : string) : bool := String.prefix prefix s.

(** The file system the [os] calls act on: what exists at each (cleaned) path.
    The root and the working directory always exist. *)
Inductive Node : Type :=
| IsDir
| IsFile (content : string).

Definition always_exists (name : string) : bool :=
  bool_decide (name = "/" ∨ name = ".").

(** [os.Stat]. *)
Definition os_Stat (name : string) (disk : gmap string Node) : result Node :=
  if always_exists name then Ok IsDir
  else match disk !! name with
       | Some n => Ok n
       | None => Err (errors_New ("stat " +:+ name +:+ ": no such file or directory"))
       end.

(** The directories [os.MkdirAll] visits, outermost first: every leading part
    of the path that is not the root. *)
Definition leading_parts (name : string) : list string :=
  let elems := split name in
  filter (λ d, d ≠ "" ∧ d ≠ "/")
    ((λ n, join (take n elems)) <$> seq 1 (length elems)).

(** [os.MkdirAll]: creates what is missing, parents first, and fails on a
    component that exists and is not a directory. *)
Fixpoint mkdir_parts (parts : list string) (disk : gmap string Node)
  : option error * gmap string Node :=
  match parts with
  | [] => (None, disk)
  | d :: rest =>
      match os_Stat d disk with
      | Ok IsDir => mkdir_parts rest disk
      | Ok (IsFile _) =>
          (Some (errors_New ("mkdir " +:+ d +:+ ": not a directory")), disk)
      | Err _ => mkdir_parts rest (<[d := IsDir]> disk)
      end
  end.

Definition os_MkdirAll (name : string) (disk : gmap string Node)
  : option error * gmap string Node :=
  mkdir_parts (leading_parts name) disk.

(** [os.Create]: the file is created or truncated; the result is the path the
    open file writes to. *)
Definition os_Create (name : string) (disk : gmap string Node)
  : result string * gmap string Node :=
  match os_Stat (filepath_Dir name) disk with
  | Ok IsDir =>
      match os_Stat name disk with
      | Ok IsDir =>
          (Err (errors_New ("open " +:+ name +:+ ": is a directory")), disk)
      | _ => (Ok name, <[name := IsFile ""]> disk)
      end
  | Ok (IsFile _) =>
      (Err (errors_New ("open " +:+ name +:+ ": not a directory")), disk)
  | Err _ =>
      (Err (errors_New ("open " +:+ name +:+ ": no such file or directory")), disk)
  end.

(** Writing to an open file appends to its content. *)
Definition file_Write (f : string) (data : string) (disk : gmap string Node)
  : gmap string Node :=
  match disk !! f with
  | Some (IsFile content) => <[f := IsFile (content +:+ data)]> disk
  | _ => disk
  end.

(** ** fsadapter *)

(** The [FS] interface, as far as the sources use it. *)
Class FS (F : Type) : Type := {
  FS_Create : F → string → gmap string Node → result string * gmap string Node
}.

Record Directory : Type := NewDirectory { dir : string }.

Definition ensureSubdir (fs : Directory) (node : string) : option error :=
  match filepath_Rel (dir fs) node with
  | Err err => Some err
  | Ok rel => if strings_HasPrefix rel ".." then Some ErrIllegalDir else None
  end.

Definition mkdirAll (name : string) (disk : gmap string Node)
  : option error * gmap string Node :=
  if decide (name = "") then (Some (errors_New "empty directory"), disk)
  else
    match os_Stat name disk with
    | Ok IsDir => (None, disk)
    | _ => os_MkdirAll name disk
    end.

Definition Directory_Create (fs : Directory) (fpath : string)
    (disk : gmap string Node) : result string * gmap string Node :=
  let node := filepath_Join (dir fs) fpath in
  match ensureSubdir fs node with
  | Some err => (Err (fmt_Errorf "failed to create %s: %w" node err), disk)
  | None =>
      let nodeDir := filepath_Dir node in
      match mkdirAll nodeDir disk with
      | (Some err, disk) => (Err err, disk)
      | (None, disk) => os_Create node disk
      end
  end.

#[global] Instance Directory_FS : FS Directory := {| FS_Create := Directory_Create |}.

(** The relative path begins with a parent-directory element. *)
Definition parent_escape (rel : string) : Prop := head (split rel) = Some "..".

(** [node] lies strictly below [root]: element by element, the cleaned root is
    a proper prefix of the cleaned node. *)
Definition strictly_under (root node : string) : bool :=
  let r := rel_elements (filepath_Clean root) in
  let n := rel_elements (filepath_Clean node) in
  bool_decide (r `prefix_of` n ∧ length r < length n).

(** ** exportV3: the workers and the error channel *)

(** The three goroutines that send on [errC]. *)
Inductive Worker : Type :=
| Feeder                             (* errC <- generator(ctx, links, list) *)
| UserWorker                         (* errC <- userWorker(ctx, s, tmpdir) *)
| ConversationWorker.                (* errC <- conversationWorker(...) *)

#[global] Instance Worker_eq_dec : EqDecision Worker.
Proof. solve_decision. Defined.

Definition workers : list Worker := [Feeder; UserWorker; ConversationWorker].

(** [errC := make(chan error, 1)]. *)
Definition errC_cap : nat := 1.

(** What the worker functions do in one run: the value each returns and the
    chunk files it has written when it returns. *)
Record Run : Type := mkRun {
  returns : Worker → option error;
  flushes : Worker → gset string
}.

(** The caller of [exportV3]: in [for err := range errC], or returned. *)
Inductive Caller : Type :=
| Ranging
| Returned (err : option error).

Record Pipeline : Type := mkPipeline {
  sending : list Worker;             (* worker function returned, at [errC <-] *)
  reported : list Worker;            (* send completed, [wg.Done()] ran *)
  errC : list (option error);        (* values buffered in the channel *)
  errC_closed : bool;
  received : list (option error);    (* values the caller has taken *)
  caller : Caller;
  tmpdir : gset string               (* files on disk *)
}.

Definition start : Pipeline :=
  {| sending := []; reported := []; errC := []; errC_closed := false;
     received := []; caller := Ranging; tmpdir := ∅ |}.

(** The interleavings of the goroutines of [exportV3]. *)
Inductive step (run : Run) (cap : nat) : Pipeline → Pipeline → Prop :=
| step_work s w :                    (* a worker function returns *)
    w ∉ sending s → w ∉ reported s →
    step run cap s
      {| sending := w :: sending s; reported := reported s; errC := errC s;
         errC_closed := errC_closed s; received := received s;
         caller := caller s; tmpdir := tmpdir s ∪ flushes run w |}
| step_send s w :                    (* its send on errC completes *)
    w ∈ sending s → length (errC s) < cap →
    step run cap s
      {| sending := filter (λ x, x ≠ w) (sending s);
         reported := reported s ++ [w]; errC := errC s ++ [returns run w];
         errC_closed := errC_closed s; received := received s;
         caller := caller s; tmpdir := tmpdir s |}
| step_recv_nil s rest :             (* the range loop takes a nil *)
    caller s = Ranging → errC s = None :: rest →
    step run cap s
      {| sending := sending s; reported := reported s; errC := rest;
         errC_closed := errC_closed s; received := received s ++ [None];
         caller := Ranging; tmpdir := tmpdir s |}
| step_recv_err s err rest :         (* the range loop takes an error: return err *)
    caller s = Ranging → errC s = Some err :: rest →
    step run cap s
      {| sending := sending s; reported := reported s; errC := rest;
         errC_closed := errC_closed s; received := received s ++ [Some err];
         caller := Returned (Some err); tmpdir := tmpdir s |}
| step_close s :                     (* sentinel: wg.Wait(); close(errC) *)
    (∀ w, w ∈ reported s) → errC_closed s = false →
    step run cap s
      {| sending := sending s; reported := reported s; errC := errC s;
         errC_closed := true; received := received s;
         caller := caller s; tmpdir := tmpdir s |}
| step_end s :                       (* the range loop ends: return nil *)
    caller s = Ranging → errC s = [] → errC_closed s = true →
    step run cap s
      {| sending := sending s; reported := reported s; errC := errC s;
         errC_closed := errC_closed s; received := received s;
         caller := Returned None; tmpdir := tmpdir s |}.

(** The states a run of [exportV3] passes through. *)
Definition reachable (run : Run) (s : Pipeline) : Prop :=
  rtc (step run errC_cap) start s.

(** [for err := range errC { if err != nil { return err } }; return nil] on
    the values the channel delivers before it is closed. *)
Fixpoint range_errC (values : list (option error)) : option error :=
  match values with
  | [] => None
  | Some err :: _ => Some err
  | None :: rest => range_errC rest
  end.

(** What holds in every state of a run. *)
Record invariant (run : Run) (cap : nat) (s : Pipeline) : Prop := mkInvariant {
  inv_nodup : NoDup (sending s ++ reported s);
  inv_sent : received s ++ errC s = returns run <$> reported s;
  inv_cap : length (errC s) ≤ cap;
  inv_closed : errC_closed s = true → ∀ w, w ∈ reported s;
  inv_ranging : caller s = Ranging → Forall (λ v, v = None) (received s);
  inv_returned : ∀ r, caller s = Returned r → r = range_errC (received s);
  inv_nil : caller s = Returned None → errC_closed s = true ∧ errC s = [];
  inv_files : ∀ w, w ∈ sending s ++ reported s → flushes run w ⊆ tmpdir s
}.

(** A run in which the conversation worker fails and the other two succeed. *)
Definition remote_failure : error :=
  fmt_Errorf "error streaming conversations: %w" "" (errors_New "remote failure").

Definition failing_run : Run :=
  {| returns w := if decide (w = ConversationWorker) then Some remote_failure else None;
     flushes w := match w with
                  | Feeder => {["channels.json.gz"]}
                  | UserWorker => {["users.json.gz"]}
                  | ConversationWorker => ∅
                  end |}.

(** The caller has returned the conversation worker's error, the feeder's nil
    sits in the buffer, and the user worker is at its send. *)
Definition blocked_state : Pipeline :=
  {| sending := [UserWorker]; reported := [ConversationWorker; Feeder];
     errC := [None]; errC_closed := false; received := [Some remote_failure];
     caller := Returned (Some remote_failure);
     tmpdir := ∅ ∪ flushes failing_run ConversationWorker
                 ∪ flushes failing_run Feeder ∪ flushes failing_run UserWorker |}.

(** ** dump: the single-item path *)

Inductive LogLine : Type :=
| LogSkipped (channelID : string) (err : error)
    (* "error processing: %q (conversation will be skipped): %s" *)
| LogGenerating (filename : string). (* "generating %s" *)

(** What the calls of [dump] act on: the disk behind the file system adapter
    and the logger's output. *)
Record World : Type := mkWorld {
  disk : gmap string Node;
  logged : list LogLine
}.

Definition is_skip (l : LogLine) : bool :=
  match l with
  | LogSkipped _ _ => true
  | LogGenerating _ => false
  end.

Definition succeeded (o : string * option error) : Prop := o.2 = None.

Definition skipped_line (o : string * option error) : option LogLine :=
  LogSkipped o.1 <$> o.2.

(** Modelled from the spec: [Input.Producer] (package [config], not among the
    sources) calls [fn] for each entry in order; an entry whose callback
    returns [ErrSkip] is skipped and the iteration continues with the
    remainder; any other error ends it. *)
Fixpoint Producer {S : Type} (entries : list string)
    (fn : string → S → option error * S) (s : S) : option error * S :=
  match entries with
  | [] => (None, s)
  | entry :: rest =>
      match fn entry s with
      | (None, s) => Producer rest fn s
      | (Some err, s) =>
          if errors_Is err ErrSkip then Producer rest fn s else (Some err, s)
      end
  end.

Section Dump.

Context {F : Type} `{!FS F}.

(** [types.Conversation], [nametmpl.Template], and the library calls on them. *)
Context {Conversation Template : Type}.
Variable Execute : Template → Conversation → result string.
Variable json_Encode : Conversation → result string.
Variable txt_Conversation : Conversation → result string.

(** [config.Params] and [slackdump.Session], as far as [dump] reads them. *)
Record Params : Type := mkParams {
  Input_IsValid : bool;
  Input_entries : list string;
  CompileTemplates : result Template;
  Output_IsText : bool
}.

Record Session : Type := mkSession {
  Filesystem : F;
  sess_Dump : string → result Conversation
}.

Record dump : Type := mkDump {
  sess : Session;
  cfg : Params
}.

Definition writeJSON (app : dump) (fs : F) (filename : string)
    (m : Conversation) (w : World) : option error * World :=
  match FS_Create fs filename (disk w) with
  | (Err err, d) =>
      (Some (fmt_Errorf "error writing %q: %w" filename err),
       {| disk := d; logged := logged w |})
  | (Ok f, d) =>
      match json_Encode m with
      | Err err =>
          (Some (fmt_Errorf "error encoding %q: %w" filename err),
           {| disk := d; logged := logged w |})
      | Ok data => (None, {| disk := file_Write f data d; logged := logged w |})
      end
  end.

Definition writeText (app : dump) (fs : F) (filename : string)
    (m : Conversation) (w : World) : option error * World :=
  let w := {| disk := disk w; logged := logged w ++ [LogGenerating filename] |} in
  match FS_Create fs filename (disk w) with
  | (Err err, d) =>
      (Some (fmt_Errorf "error writing %q: %w" filename err),
       {| disk := d; logged := logged w |})
  | (Ok f, d) =>
      match txt_Conversation m with
      | Err err => (Some err, {| disk := d; logged := logged w |})
      | Ok data => (None, {| disk := file_Write f data d; logged := logged w |})
      end
  end.

Definition writeFiles (app : dump) (fs : F) (name : string) (cnv : Conversation)
    (w : World) : option error * World :=
  match writeJSON app fs (name +:+ ".json") cnv w with
  | (Some err, w) => (Some err, w)
  | (None, w) =>
      if Output_IsText (cfg app)
      then match writeText app fs (name +:+ ".txt") cnv w with
           | (Some err, w) => (Some err, w)
           | (None, w) => (None, w)
           end
      else (None, w)
  end.

Definition dumpOne (app : dump) (fs : F) (filetmpl : Template)
    (channelInput : string) (fn : string → result Conversation) (w : World)
  : option error * World :=
  match fn channelInput with
  | Err err => (Some err, w)
  | Ok cnv =>
      match Execute filetmpl cnv with
      | Err err => (Some err, w)
      | Ok filename => writeFiles app fs filename cnv w
      end
  end.

(** The callback [Dump] hands to the producer; [total] is the variable the
    closure captures. *)
Definition dump_callback (app : dump) (tmpl : Template) (channelID : string)
    (st : nat * World) : option error * (nat * World) :=
  let '(total, w) := st in
  match dumpOne app (Filesystem (sess app)) tmpl channelID (sess_Dump (sess app)) w with
  | (Some err, w) =>
      (Some ErrSkip,
       (total, {| disk := disk w;
                  logged := logged w ++ [LogSkipped channelID err] |}))
  | (None, w) => (None, (S total, w))
  end.

Definition Dump (app : dump) (w : World) : nat * option error * World :=
  if negb (Input_IsValid (cfg app))
  then (0, Some (errors_New "no valid input"), w)
  else
    match CompileTemplates (cfg app) with
    | Err err => (0, Some err, w)
    | Ok tmpl =>
        let '(err, (total, w)) :=
          Producer (Input_entries (cfg app)) (dump_callback app tmpl) (0, w) in
        (total, err, w)
    end.

(** Every entry tried in turn, with what [dumpOne] returned for it: a failure
    is logged and the next entry follows. *)
Fixpoint attempts (app : dump) (tmpl : Template) (entries : list string)
    (w : World) : list (string * option error) * World :=
  match entries with
  | [] => ([], w)
  | channelID :: rest =>
      let '(r, w) :=
        dumpOne app (Filesystem (sess app)) tmpl channelID
          (sess_Dump (sess app)) w in
      let w := match r with
               | Some err => {| disk := disk w;
                                logged := logged w ++ [LogSkipped channelID err] |}
               | None => w
               end in
      let '(outcomes, w) := attempts app tmpl rest w in
      ((channelID, r) :: outcomes, w)
  end.

End Dump.

(** ** Sample data *)

Definition msg1 : Message := {| Timestamp := "1700000000.000100"; Text := "hello" |}.
Definition msg2 : Message := {| Timestamp := "1700000000.000200"; Text := "world" |}.

Definition ev_messages (channelID : string) (mm : list Message) : Event :=
  {| Type_ := EventMessages; ChannelID := channelID; Parent := None;
     IsThreadMessage := false; Messages := mm; Files := [];
     Channels := []; Users := [] |}.

Definition ev_thread (channelID : string) (parent : Message) (mm : list Message)
  : Event :=
  {| Type_ := EventThreadMessages; ChannelID := channelID; Parent := Some parent;
     IsThreadMessage := true; Messages := mm; Files := [];
     Channels := []; Users := [] |}.

Definition ev_channels (cc : list string) : Event :=
  {| Type_ := EventChannelListing; ChannelID := ""; Parent := None;
     IsThreadMessage := false; Messages := []; Files := [];
     Channels := cc; Users := [] |}.

Definition sample_log : list (Event * positive) :=
  [(ev_messages "C1" [msg1], 120%positive);
   (ev_thread "C1" msg1 [msg2], 96%positive);
   (ev_messages "C1" [msg2], 64%positive);
   (ev_messages "C2" [msg1], 80%positive)].

Definition listing_log : list (Event * positive) :=
  [(ev_channels ["C1"; "C2"], 40%positive)].

(** A session whose remote fails on C2, writing under [/out]. *)
Definition sample_dump : @dump Directory string unit :=
  {| sess := {| Filesystem := NewDirectory "/out";
                sess_Dump := λ channelID,
                  if decide (channelID = "C2")
                  then Err (errors_New "channel_not_found")
                  else Ok channelID |};
     cfg := {| Input_IsValid := true; Input_entries := ["C1"; "C2"; "C3"];
               CompileTemplates := Ok (); Output_IsText := false |} |}.

(** Membership goals over the list of workers. *)
Ltac not_among :=
  rewrite ?not_elem_of_cons; repeat split; first [discriminate | apply not_elem_of_nil].

(** ** More of the player *)

(** Calls delivered one after the other until the consumer returns an
    error. *)
Fixpoint deliver_all {C : Type} `{!Channeler C} (c : C) (calls : list Call)
  : option error * C :=
  match calls with
  | [] => (None, c)
  | k :: rest =>
      match deliver c k with
      | (Some err, c) => (Some err, c)
      | (None, c) => deliver_all c rest
      end
  end.

(** A player over a log indexed from its start, as any sequence of calls
    leaves it: the index and the stream are as they were, and no cursor is
    past the events of its ID. *)
Definition in_step (ID : Event → string) (fs : list Frame)
    (idx0 : gmap string (list Z)) (p : Player) : Prop :=
  idx p = idx0 ∧ frames (rs p) = fs
  ∧ ∀ id, cursor id p ≤ length (events_with ID fs id).

(** [n] calls of [Player.Messages] for one channel. *)
Fixpoint messagesAll (channelID : string) (n : nat) (p : Player)
  : list (result (list Message)) * Player :=
  match n with
  | 0 => ([], p)
  | S n =>
      let '(r, p) := Player_Messages channelID p in
      let '(rest, p) := messagesAll channelID n p in
      (r :: rest, p)
  end.

(** ** More of fsadapter *)

(** [os.WriteFile]: the file is created or truncated as by [os.Create], and
    the data written to it. *)
Definition os_WriteFile (name data : string) (disk : gmap string Node)
  : option error * gmap string Node :=
  match os_Create name disk with
  | (Err err, disk) => (Some err, disk)
  | (Ok f, disk) => (None, file_Write f data disk)
  end.

Definition Directory_String (d : Directory) : string :=
  "<directory: " +:+ dir d +:+ ">".

Definition Directory_WriteFile (fs : Directory) (name data : string)
    (disk : gmap string Node) : option error * gmap string Node :=
  let node := filepath_Join (dir fs) name in
  match ensureSubdir fs node with
  | Some err => (Some (fmt_Errorf "WriteFile: %w" "" err), disk)
  | None =>
      match mkdirAll (filepath_Dir node) disk with
      | (Some err, disk) => (Some err, disk)
      | (None, disk) => os_WriteFile node data disk
      end
  end.

Definition Directory_Close (fs : Directory) : option error := None.

(** ** expproc: the base processor *)

(** [runtime.Breakpoint()] executes a breakpoint trap: the program stops
    there, killed by the trap signal unless a debugger resumes it.  A call
    either runs to its return, or meets the trap, with what it returns when
    it is resumed. *)
Inductive Trap (A : Type) : Type :=
| Runs (a : A)
| Breakpoint (resumed : A).

Arguments Runs {A} a.
Arguments Breakpoint {A} resumed.

(** Whether the trap is met, and what the call returns if it gets to return. *)
Definition trapped {A : Type} (t : Trap A) : bool :=
  match t with
  | Runs _ => false
  | Breakpoint _ => true
  end.

Definition returned {A : Type} (t : Trap A) : A :=
  match t with
  | Runs a => a
  | Breakpoint a => a
  end.

(** The processor's open file, by the path it writes to.  Paths are the
    disk's keys, cleaned as [os.MkdirTemp] and [filepath.Join] return them. *)
Record baseproc : Type := mkBaseproc {
  bp_dir : string;
  bp_wf : string
}.

Section BaseProc.

(** The extension of the chunk files is a constant declared outside the
    sources. *)
Variable ext : string.

Definition newBaseProc (dir name : string) (disk : gmap string Node)
  : Trap (result baseproc * gmap string Node) :=
  match os_Stat dir disk with
  | Err err => Runs (Err err, disk)
  | Ok (IsFile _) => Runs (Err (errors_New ("not a directory: " +:+ dir)), disk)
  | Ok IsDir =>
      let filename := filepath_Join dir (name +:+ ext) in
      let create :=
        match os_Create filename disk with
        | (Err err, disk) => Runs (Err err, disk)
        | (Ok f, disk) => Runs (Ok {| bp_dir := dir; bp_wf := f |}, disk)
        end in
      match os_Stat filename disk with
      | Ok IsDir => Runs (Err (errors_New ("not a file: " +:+ filename)), disk)
      | Ok (IsFile content) =>
          if decide (content = "") then create
          else
            Breakpoint
              (Err (errors_New ("file " +:+ filename +:+ " exists and not empty")),
               disk)
      | Err _ => create
      end
  end.

End BaseProc.

(** [baseproc.Close] over the three things it closes, each a call that may
    fail and changes the state of what it closes. *)
Section BaseProcClose.

Context {S : Type}.
Variable Recorder_Close gz_Close wf_Close : S → option error * S.

Definition baseproc_Close (s : S) : option error * S :=
  match Recorder_Close s with
  | (Some err, s) =>
      let s := (gz_Close s).2 in
      let s := (wf_Close s).2 in
      (Some err, s)
  | (None, s) =>
      match gz_Close s with
      | (Some err, s) =>
          let s := (wf_Close s).2 in
          (Some err, s)
      | (None, s) => wf_Close s
      end
  end.

End BaseProcClose.

(** ** exportV3: the feeders *)

(** What a [select] between [ctx.Done()] and a send on [links] does. *)
Inductive Select : Type :=
| CtxDone
| LinkSent.

(** [ctx.Err()] of a cancelled context. *)
Definition context_Canceled : error := errors_New "context canceled".

(** [listChannelGenerator]: [selects] is what each [select] it reaches does
    (a send when none is given); the result is the error returned and the IDs
    put on [links]. *)
Fixpoint listChannelGenerator (selects : list Select) (Include : list string)
    (links : list string) : option error * list string :=
  match Include with
  | [] => (None, links)
  | ch :: rest =>
      match selects with
      | CtxDone :: _ => (Some context_Canceled, links)
      | LinkSent :: selects => listChannelGenerator selects rest (links ++ [ch])
      | [] => listChannelGenerator [] rest (links ++ [ch])
      end
  end.

(** The part of [slack.Channel] the feeder reads. *)
Record Channel : Type := mkChannel {
  Channel_ID : string;
  IsMember : bool
}.

(** The callback [apiChannelGenerator] gives to the channel processor, for one
    page [c] of listed channels; [chIdx] is [list.Index()]. *)
Fixpoint apiChannelCallback (memberOnly : bool) (chIdx : gmap string bool)
    (selects : list Select) (c : list Channel) (links : list string)
  : option error * list string :=
  match c with
  | [] => (None, links)
  | ch :: rest =>
      if memberOnly && negb (IsMember ch)
      then apiChannelCallback memberOnly chIdx selects rest links
      else if bool_decide (chIdx !! Channel_ID ch = Some false)
      then apiChannelCallback memberOnly chIdx selects rest links
      else
        match selects with
        | CtxDone :: _ => (Some context_Canceled, links)
        | LinkSent :: selects =>
            apiChannelCallback memberOnly chIdx selects rest
              (links ++ [Channel_ID ch])
        | [] =>
            apiChannelCallback memberOnly chIdx [] rest (links ++ [Channel_ID ch])
        end
  end.

(** The channels the callback passes on. *)
Definition passes (memberOnly : bool) (chIdx : gmap string bool) (ch : Channel)
  : Prop :=
  (memberOnly = true → IsMember ch = true) ∧ chIdx !! Channel_ID ch ≠ Some false.

#[global] Instance passes_dec memberOnly chIdx ch :
  Decision (passes memberOnly chIdx ch).
Proof. unfold passes. apply _. Defined.


(** ** dump.List *)

(** What [createFile] returns: the standard output, or a created file. *)
Inductive Output : Type :=
| os_Stdout
| os_File (f : string).

(** The disk, the standard output and the log, as [List] changes them. *)
Record Console : Type := mkConsole {
  con_disk : gmap string Node;
  con_stdout : string;
  con_log : list string
}.

Definition createFile (filename : string) (disk : gmap string Node)
  : result Output * gmap string Node :=
  if decide (filename = "-") then (Ok os_Stdout, disk)
  else
    match os_Create filename disk with
    | (Ok f, disk) => (Ok (os_File f), disk)
    | (Err err, disk) => (Err err, disk)
    end.

Definition Output_Write (f : Output) (data : string) (c : Console) : Console :=
  match f with
  | os_Stdout =>
      {| con_disk := con_disk c; con_stdout := con_stdout c +:+ data;
         con_log := con_log c |}
  | os_File f =>
      {| con_disk := file_Write f data (con_disk c); con_stdout := con_stdout c;
         con_log := con_log c |}
  end.

Section List.

Context {User : Type}.

(** [format.Converter]: what a formatter writes to its output, and the error
    it returns. *)
Record Converter : Type := mkConverter {
  Converter_Channels : list User → list Channel → string * option error;
  Converter_Users : list User → string * option error
}.

Variable format_NewJSON format_NewText : Converter.

(** [config.Params] and [slackdump.Session], as far as [List] reads them. *)
Record ListParams : Type := mkListParams {
  Output_Filename : string;
  List_IsText : bool;
  ListFlags_Channels : bool;
  ListFlags_Users : bool
}.

Record ListSession : Type := mkListSession {
  sess_Users : list User;
  GetChannels : result (list Channel);
  GetUsers : result (list User)
}.

Definition List (cfg : ListParams) (sess : ListSession) (c : Console)
  : option error * Console :=
  match createFile (Output_Filename cfg) (con_disk c) with
  | (Err err, disk) =>
      (Some err,
       {| con_disk := disk; con_stdout := con_stdout c; con_log := con_log c |})
  | (Ok f, disk) =>
      let c := {| con_disk := disk; con_stdout := con_stdout c;
                  con_log := con_log c ++ ["retrieving data..."] |} in
      let formatter :=
        if List_IsText cfg then format_NewText else format_NewJSON in
      if ListFlags_Channels cfg then
        match GetChannels sess with
        | Err err => (Some err, c)
        | Ok ch =>
            let '(data, err) := Converter_Channels formatter (sess_Users sess) ch in
            (err, Output_Write f data c)
        end
      else if ListFlags_Users cfg then
        match GetUsers sess with
        | Err err => (Some err, c)
        | Ok u =>
            let '(data, err) := Converter_Users formatter u in
            (err, Output_Write f data c)
        end
      else (Some (errors_New "no valid list flag"), c)
  end.

End List.

(** ** More sample data *)

(** A consumer with room for a number of calls: it keeps the calls it takes,
    in order, and refuses the rest. *)
Record Quota : Type := mkQuota {
  taken : list Call;
  room : nat
}.

Definition Quota_take (k : Call) (q : Quota) : option error * Quota :=
  match room q with
  | 0 => (Some (errors_New "no room"), q)
  | S n => (None, {| taken := taken q ++ [k]; room := n |})
  end.

#[global] Instance quota_Channeler : Channeler Quota := {|
  Channeler_Messages ch mm := Quota_take (CallMessages ch mm);
  Channeler_ThreadMessages ch par mm := Quota_take (CallThreadMessages ch par mm);
  Channeler_Files ch par th ff := Quota_take (CallFiles ch par th ff)
|}.

(** A thread event written without its parent message. *)
Definition ev_orphan (channelID : string) (mm : list Message) : Event :=
  {| Type_ := EventThreadMessages; ChannelID := channelID; Parent := None;
     IsThreadMessage := true; Messages := mm; Files := [];
     Channels := []; Users := [] |}.

(** A player over the sample log followed by what [tail] holds. *)
Definition sample_player (tail : list Frame) : Player :=
  {| rs := open (recorded sample_log ++ tail); pointer := ∅; idx := ∅ |}.

(** Formatters that write the channel IDs, or the users, one after the
    other. *)
Definition sample_json : @Converter string :=
  {| Converter_Channels := λ _ ch, (String.concat "," (Channel_ID <$> ch), None);
     Converter_Users := λ u, (String.concat "," u, None) |}.

Definition sample_text : @Converter string :=
  {| Converter_Channels := λ _ ch, (String.concat " " (Channel_ID <$> ch), None);
     Converter_Users := λ u, (String.concat " " u, None) |}.

Definition sample_session : @ListSession string :=
  {| sess_Users := ["U1"];
     GetChannels := Ok [{| Channel_ID := "C1"; IsMember := true |};
                        {| Channel_ID := "C2"; IsMember := false |}];
     GetUsers := Err (errors_New "users: rate limited") |}.

(** * Properties *)

(** ** The record stream and the index *)

Section PlayerFacts.

Variable ID : Event → string.

#[local] Abbreviation offsets_from := (offsets_from ID).
#[local] Abbreviation events_with := (events_with ID).

Lemma indexLoop_step dec idx :
  indexLoop ID dec idx =
  match Decode dec with
  | (Ok event, dec') =>
      indexLoop ID dec' (<[ID event := (idx !!! ID event) ++ [InputOffset dec]]> idx)
  | (Err err, dec') =>
      if decide (err = io_EOF) then (Ok idx, dec') else (Err err, dec')
  end.
Proof.
  simp indexLoop. unfold inspect.
  enough (∀ x (H : Decode dec = x),
    indexLoop_unfold_clause_1 ID dec (x ↾ H) idx =
    match x with
    | (Ok event, dec') =>
        indexLoop ID dec' (<[ID event := (idx !!! ID event) ++ [InputOffset dec]]> idx)
    | (Err err, dec') =>
        if decide (err = io_EOF) then (Ok idx, dec') else (Err err, dec')
    end) as HH by apply HH.
  intros [[ev|e] dec'] H; simp indexLoop; reflexivity.
Qed.

Lemma offsets_from_ge base fs id o :
  o ∈ offsets_from base fs id → (base ≤ o)%Z.
Proof.
  revert base. induction fs as [|f fs IH]; intros base; simpl.
  - by intros ?%elem_of_nil.
  - rewrite elem_of_app. intros [H|H].
    + destruct (payload f) as [e|]; [|by apply elem_of_nil in H].
      case_decide; [apply list_elem_of_singleton in H; lia | by apply elem_of_nil in H].
    + apply IH in H. lia.
Qed.

Lemma offsets_from_length base fs id :
  decodable fs → length (offsets_from base fs id) = length (events_with fs id).
Proof.
  unfold events_with. intros Hd. revert base.
  induction Hd as [|f fs [e He] _ IH]; intros base; simpl; [done|].
  rewrite He. simpl. rewrite filter_cons, length_app, IH.
  by case_decide.
Qed.

(** The [k]th offset recorded for [id] is a record boundary, and the record
    there is the [k]th event keyed [id]. *)
Lemma locate_offsets base fs id k o :
  decodable fs →
  offsets_from base fs id !! k = Some o →
  ∃ f rest e, locate fs (o - base) = Some (f :: rest)
              ∧ payload f = Some e ∧ events_with fs id !! k = Some e.
Proof.
  unfold events_with. intros Hd. revert base k.
  induction Hd as [|f fs [e He] _ IH]; intros base k; simpl; [done|].
  rewrite He. simpl. rewrite filter_cons.
  assert (∀ k, offsets_from (base + Z.pos (size f)) fs id !! k = Some o →
    ∃ f' rest e',
      (if decide (o - base = 0)%Z then Some (f :: fs)
       else if decide (o - base < Z.pos (size f))%Z then None
            else locate fs (o - base - Z.pos (size f))) = Some (f' :: rest)
      ∧ payload f' = Some e'
      ∧ filter (λ e0, ID e0 = id) (omap payload fs) !! k = Some e') as Hrest.
  { intros k' Hk. pose proof Hk as Hge.
    apply list_elem_of_lookup_2, offsets_from_ge in Hge.
    apply IH in Hk as (f' & rest & e' & Hl & Hp & Hk).
    exists f', rest, e'. split_and!; try done.
    do 2 (case_decide; [lia|]).
    by replace (o - base - Z.pos (size f))%Z with (o - (base + Z.pos (size f)))%Z by lia. }
  destruct (decide (ID e = id)) as [Hid|Hid]; simpl; [|apply Hrest].
  destruct k as [|k]; simpl; [|apply Hrest].
  intros [= <-]. exists f, fs, e. by rewrite decide_True by lia.
Qed.

(** What [indexLoop] computes on a decodable input. *)
Lemma indexLoop_decodable fs dec idx :
  decodable fs → pending dec = Some fs →
  ∃ idx' dec',
    indexLoop ID dec idx = (Ok idx', dec')
    ∧ frames (src dec') = frames (src dec)
    ∧ ∀ id, idx' !! id =
            match offsets_from (InputOffset dec) fs id with
            | [] => idx !! id
            | l => Some (idx !!! id ++ l)
            end.
Proof.
  intros Hd. revert dec idx.
  induction Hd as [|f fs [e He] _ IH]; intros dec idx Hp;
    rewrite indexLoop_step; unfold Decode; rewrite Hp.
  - simpl. eauto.
  - rewrite He.
    edestruct IH as (idx' & dec' & -> & Hfr & Hl); [reflexivity|].
    exists idx', dec'. split_and!; [done|by rewrite Hfr|].
    intros id. rewrite Hl. simpl. rewrite He.
    destruct (decide (ID e = id)) as [Hid|Hne]; simpl.
    + subst id. rewrite lookup_insert_eq, lookup_total_insert_eq.
      destruct (offsets_from _ fs (ID e)); simpl; [done|].
      by rewrite <- app_assoc.
    + rewrite lookup_insert_ne, lookup_total_insert_ne by done.
      done.
Qed.

(** A record that does not decode aborts the loop with the decoder's error. *)
Lemma indexLoop_malformed fs dec idx :
  ¬ decodable fs → pending dec = Some fs →
  ∃ dec', indexLoop ID dec idx = (Err json_SyntaxError, dec').
Proof.
  revert dec idx. induction fs as [|f fs IH]; intros dec idx Hnd Hp.
  - destruct Hnd. constructor.
  - rewrite indexLoop_step. unfold Decode. rewrite Hp.
    destruct (payload f) as [e|] eqn:He.
    + apply IH; [|done]. intros Hd. apply Hnd. constructor; [by rewrite He|done].
    + simpl. eauto.
Qed.


Lemma locate_0 fs : locate fs 0 = Some fs.
Proof. by destruct fs. Qed.

Lemma recorded_frames (w : list (Event * positive)) :
  recorded w = (λ en, {| payload := Some en.1; size := en.2 |}) <$> w.
Proof.
  unfold recorded.
  enough (∀ acc, foldl (λ log en, Append log en.1 en.2) acc w
                 = acc ++ ((λ en, {| payload := Some en.1; size := en.2 |}) <$> w))
    as H by apply (H []).
  induction w as [|en w IH]; intros acc; simpl.
  - by rewrite app_nil_r.
  - rewrite IH. unfold Append. by rewrite <- app_assoc.
Qed.

Lemma recorded_decodable w : decodable (recorded w).
Proof.
  rewrite recorded_frames. apply Forall_fmap, Forall_forall. by eexists.
Qed.

Lemma recorded_events w id :
  events_with (recorded w) id = filter (λ e, ID e = id) w.*1.
Proof.
  unfold events_with. f_equal. rewrite recorded_frames.
  induction w as [|en w IH]; [done|]. simpl. f_equal. exact IH.
Qed.

Lemma indexLoop_frames fs dec idx :
  pending dec = fs → frames (src (indexLoop ID dec idx).2) = frames (src dec).
Proof.
  destruct fs as [fs|]; revert dec idx.
  - induction fs as [|f fs IH]; intros dec idx Hp;
      rewrite indexLoop_step; unfold Decode; rewrite Hp; [done|].
    destruct (payload f); [|done]. by rewrite IH.
  - intros dec idx Hp. rewrite indexLoop_step. unfold Decode. by rewrite Hp.
Qed.

(** Indexing a decodable log from its start. *)
Lemma indexRecords_open fs :
  decodable fs →
  ∃ idx, indexRecords ID (open fs) = (Ok idx, open fs)
         ∧ ∀ id, idx !! id = match offsets_from 0 fs id with
                             | [] => None
                             | l => Some l
                             end.
Proof.
  intros Hd. unfold indexRecords.
  destruct (indexLoop_decodable fs (NewDecoder (open fs)) ∅ Hd)
    as (idx & dec' & -> & Hfr & Hl); [apply locate_0|].
  exists idx. split.
  - unfold Seek. simpl. rewrite Hfr. done.
  - intros id. rewrite Hl. simpl. by rewrite lookup_empty.
Qed.

Lemma tryGetEvent_not_found id p :
  idx p !! id = None → tryGetEvent id p = (Err ErrNotFound, p).
Proof. unfold tryGetEvent. by intros ->. Qed.

Lemma tryGetEvent_exhausted id p offsets :
  idx p !! id = Some offsets → length offsets ≤ cursor id p →
  (tryGetEvent id p).1 = Err io_EOF.
Proof.
  unfold tryGetEvent, cursor. intros -> Hk. simpl. by rewrite decide_True.
Qed.

Lemma tryGetEvent_hit id p offsets o f rest e :
  idx p !! id = Some offsets →
  offsets !! cursor id p = Some o → (0 ≤ o)%Z →
  locate (frames (rs p)) o = Some (f :: rest) → payload f = Some e →
  ∃ p', tryGetEvent id p = (Ok e, p')
        ∧ idx p' = idx p ∧ frames (rs p') = frames (rs p)
        ∧ cursor id p' = S (cursor id p).
Proof.
  unfold tryGetEvent, cursor. intros -> Ho Hpos Hloc Hpay. simpl.
  rewrite decide_False by (apply lookup_lt_Some in Ho; lia).
  rewrite (list_lookup_total_correct _ _ _ Ho).
  unfold Seek. rewrite decide_False by lia.
  unfold NewDecoder, Decode. simpl.
  destruct (pointer p !! id) as [k|] eqn:Hk; simpl in *;
    rewrite Hloc, Hpay; eexists; split_and!; try done; simpl.
  - by rewrite lookup_insert_eq, lookup_total_alt, Hk.
  - by rewrite lookup_insert_eq, lookup_total_insert_eq.
Qed.

Lemma hasMore_spec id p :
  ∃ p', hasMore id p =
          (match idx p !! id with
           | Some offsets => bool_decide (cursor id p < length offsets)
           | None => false
           end, p')
        ∧ idx p' = idx p ∧ rs p' = rs p ∧ cursor id p' = cursor id p.
Proof.
  unfold hasMore, cursor. destruct (idx p !! id); [|by eexists].
  destruct (pointer p !! id) eqn:Hk; simpl;
    eexists; split_and!; try done; simpl.
  - by rewrite Hk.
  - by rewrite lookup_insert_eq.
Qed.

(** Retrieval from cursor position [k] on, on a player over a decodable log
    indexed from its start. *)
Lemma retrieveAll_from fs idx0 id n :
  decodable fs →
  (∀ id, idx0 !! id = match offsets_from 0 fs id with
                      | [] => None
                      | l => Some l
                      end) →
  ∀ k p, idx p = idx0 → frames (rs p) = fs → cursor id p = k →
    k + n ≤ length (events_with fs id) →
    ∃ p', retrieveAll id n p
          = ((λ e, (true, Ok e)) <$> take n (drop k (events_with fs id)), p')
          ∧ idx p' = idx0 ∧ frames (rs p') = fs ∧ cursor id p' = k + n.
Proof.
  intros Hd Hidx. induction n as [|n IH]; intros k p Hi Hf Hc Hlen; simpl.
  - exists p. by rewrite Nat.add_0_r.
  - destruct (lookup_lt_is_Some_2 (offsets_from 0 fs id) k) as [o Ho].
    { rewrite offsets_from_length by done. lia. }
    assert (idx p !! id = Some (offsets_from 0 fs id)) as Hoffs.
    { rewrite Hi, Hidx. destruct (offsets_from 0 fs id); [done|done]. }
    destruct (hasMore_spec id p) as (p1 & -> & Hi1 & Hr1 & Hc1).
    rewrite Hoffs, Hc, offsets_from_length by done.
    rewrite bool_decide_true by lia.
    destruct (locate_offsets 0 fs id k o Hd Ho) as (f & rest & e & Hloc & Hpay & He).
    rewrite Z.sub_0_r in Hloc.
    destruct (tryGetEvent_hit id p1 (offsets_from 0 fs id) o f rest e)
      as (p2 & -> & Hi2 & Hf2 & Hc2).
    { by rewrite Hi1. }
    { by rewrite Hc1, Hc. }
    { by eapply offsets_from_ge, list_elem_of_lookup_2. }
    { by rewrite Hr1, Hf. }
    { done. }
    destruct (IH (S k) p2) as (p3 & -> & Hi3 & Hf3 & Hc3).
    { by rewrite Hi2, Hi1. }
    { by rewrite Hf2, Hr1. }
    { by rewrite Hc2, Hc1, Hc. }
    { lia. }
    exists p3. split_and!; try done; [|lia].
    by rewrite (drop_S _ _ _ He).
Qed.

(** C1.  For every log and every event ID: after the events of a sequence
    were appended, asking [hasMore] and then retrieving the next event, once
    per appended event with that ID, answers [true] each time and returns
    those events in their append order; after the last one [hasMore] is
    false and a further retrieval returns no event. *)
Theorem retrieve_in_append_order (w : list (Event * positive)) (id : string) :
  let evs := filter (λ e, ID e = id) w.*1 in
  ∃ p0 p',
    NewPlayer ID (open (recorded w)) = Ok p0
    ∧ retrieveAll id (length evs) p0 = ((λ e, (true, Ok e)) <$> evs, p')
    ∧ (hasMore id p').1 = false
    ∧ ∀ e, (tryGetEvent id p').1 ≠ Ok e.
Proof.
  intros evs. pose proof (recorded_decodable w) as Hd.
  destruct (indexRecords_open _ Hd) as (idx0 & Hix & Hl).
  unfold NewPlayer. rewrite Hix.
  set (p0 := {| rs := open (recorded w); idx := idx0; pointer := ∅ |}).
  exists p0.
  destruct (retrieveAll_from (recorded w) idx0 id (length evs) Hd Hl 0 p0)
    as (p' & Hr & Hi & Hf & Hc); [done|done|done|..].
  { rewrite recorded_events. done. }
  rewrite recorded_events in Hr. fold evs in Hr.
  rewrite drop_0, firstn_all in Hr.
  exists p'. split_and!; [done|done|..].
  - destruct (hasMore_spec id p') as (p'' & -> & _). simpl.
    rewrite Hi, Hl. destruct (offsets_from 0 (recorded w) id) eqn:Ho; [done|].
    apply bool_decide_false. rewrite <- Ho, offsets_from_length, recorded_events by done.
    fold evs. lia.
  - intros e. destruct (idx p' !! id) as [offsets|] eqn:Hoffs.
    + rewrite (tryGetEvent_exhausted _ _ _ Hoffs); [done|].
      rewrite Hi, Hl in Hoffs.
      destruct (offsets_from 0 (recorded w) id) eqn:Ho; [done|].
      injection Hoffs as <-.
      rewrite <- Ho, offsets_from_length, recorded_events by done.
      fold evs. lia.
    + by rewrite tryGetEvent_not_found.
Qed.

Lemma indexRecords_rewinds r idx0 r' :
  indexRecords ID r = (Ok idx0, r') → r' = open (frames r).
Proof.
  unfold indexRecords.
  pose proof (indexLoop_frames _ (NewDecoder r) ∅ eq_refl) as Hfr.
  destruct (indexLoop ID (NewDecoder r) ∅) as [[idx1|err] dec']; [|done].
  unfold Seek. simpl in *. intros [= _ <-]. by rewrite Hfr.
Qed.

(** C7.  Indexing a log from its start is one forward scan that keys each
    record's starting byte offset, taken before the record is decoded, under
    the record's ID.  When every record decodes, the index lists for each ID
    the offsets of its records in stream order, and the stream is left rewound
    to the start; when some record does not decode, indexing ends with the
    decoder's error, and neither [indexRecords] nor [NewPlayer] returns an
    index.  Whatever the stream's position before, a successful indexing
    leaves it at the start. *)
Theorem indexRecords_all_or_nothing (fs : list Frame) :
  (decodable fs →
   ∃ idx0, indexRecords ID (open fs) = (Ok idx0, open fs)
           ∧ NewPlayer ID (open fs)
             = Ok {| rs := open fs; pointer := ∅; idx := idx0 |}
           ∧ ∀ id, idx0 !! id = match offsets_from 0 fs id with
                                | [] => None
                                | l => Some l
                                end)
  ∧ (¬ decodable fs →
     ∃ r, indexRecords ID (open fs) = (Err json_SyntaxError, r)
          ∧ NewPlayer ID (open fs) = Err json_SyntaxError)
  ∧ (∀ r idx0 r', indexRecords ID r = (Ok idx0, r') → r' = open (frames r)).
Proof.
  split_and!.
  - intros Hd. destruct (indexRecords_open _ Hd) as (idx0 & Hix & Hl).
    exists idx0. unfold NewPlayer. by rewrite Hix.
  - intros Hnd.
    destruct (indexLoop_malformed fs (NewDecoder (open fs)) ∅ Hnd) as [dec' Hdec];
      [apply locate_0|].
    unfold NewPlayer, indexRecords. rewrite Hdec. eauto.
  - apply indexRecords_rewinds.
Qed.

Lemma run_op_preserves p op :
  idx (run_op p op) = idx p ∧ frames (rs (run_op p op)) = frames (rs p).
Proof.
  destruct op as [id|id|]; simpl.
  - unfold tryGetEvent. destruct (idx p !! id); [|done]. simpl.
    case_decide; [by destruct (pointer p !! id)|].
    unfold Seek. case_decide; [by destruct (pointer p !! id)|].
    unfold Decode, NewDecoder. simpl.
    destruct (locate _ _) as [[|f rest]|]; try by destruct (pointer p !! id).
    destruct (payload f); by destruct (pointer p !! id).
  - destruct (hasMore_spec id p) as (p' & -> & Hi & Hr & _). simpl.
    by rewrite Hi, Hr.
  - done.
Qed.

Lemma foldl_run_op_preserves ops p :
  idx (foldl run_op p ops) = idx p
  ∧ frames (rs (foldl run_op p ops)) = frames (rs p).
Proof.
  revert p. induction ops as [|op ops IH]; intros p; simpl; [done|].
  destruct (IH (run_op p op)) as [-> ->]. apply run_op_preserves.
Qed.

(** C8.  [Reset] empties the cursor map, rewinds the stream to the start and
    leaves the index as it is.  On a player built by [NewPlayer], after any
    sequence of retrievals, [hasMore] queries and resets, [Reset] returns no
    error and leaves exactly the freshly built player, so every later
    retrieval behaves as on the freshly opened log. *)
Theorem Reset_restores_fresh_player (r : ReadSeeker) (p0 : Player)
    (ops : list PlayerOp) :
  NewPlayer ID r = Ok p0 →
  Reset (foldl run_op p0 ops) = (None, p0)
  ∧ (∀ id, tryGetEvent id (Reset (foldl run_op p0 ops)).2 = tryGetEvent id p0)
  ∧ (∀ p, idx (Reset p).2 = idx p ∧ pointer (Reset p).2 = ∅
          ∧ rs (Reset p).2 = open (frames (rs p))).
Proof.
  intros Hnew.
  assert (∀ p, Reset p = (None, {| rs := open (frames (rs p)); pointer := ∅;
                                   idx := idx p |})) as HR.
  { intros p. unfold Reset, Seek. simpl. done. }
  assert (Reset (foldl run_op p0 ops) = (None, p0)) as H0.
  { rewrite HR. destruct (foldl_run_op_preserves ops p0) as [-> ->].
    unfold NewPlayer in Hnew.
    destruct (indexRecords ID r) as [[idx0|err] r'] eqn:Hix; [|done].
    injection Hnew as <-. simpl.
    by rewrite (indexRecords_rewinds _ _ _ Hix). }
  split_and!; [done|by rewrite H0|].
  intros p. by rewrite HR.
Qed.

End PlayerFacts.

(** ** Replay *)

Section ReplayFacts.

Context {C : Type} `{!Channeler C}.

Lemma replayLoop_step (p : Player) dec (c : C) :
  replayLoop p dec c =
  match Decode dec with
  | (Err err, dec') =>
      if decide (err = io_EOF) then (None, dec', c) else (Some err, dec', c)
  | (Ok evt, dec') =>
      match emit p c evt with
      | (Some err, c') => (Some err, dec', c')
      | (None, c') => replayLoop p dec' c'
      end
  end.
Proof.
  simp replayLoop. unfold inspect.
  enough (∀ x (H : Decode dec = x),
    replayLoop_unfold_clause_1 p dec (x ↾ H) c =
    match x with
    | (Err err, dec') =>
        if decide (err = io_EOF) then (None, dec', c) else (Some err, dec', c)
    | (Ok evt, dec') =>
        match emit p c evt with
        | (Some err, c') => (Some err, dec', c')
        | (None, c') => replayLoop p dec' c'
        end
    end) as HH by apply HH.
  intros [[evt|e] dec'] H; simp replayLoop; [|reflexivity].
  destruct (emit p c evt) as [[err|] c']; simp replayLoop; reflexivity.
Qed.

Lemma emit_call (p : Player) (c : C) evt :
  has_parent evt = true →
  emit p c evt = from_option (deliver c) (None, c) (call_of evt).
Proof.
  unfold emit, has_parent, call_of.
  destruct (Type_ evt); try done;
    (destruct (Parent evt); [done|]; intros H%bool_decide_eq_true;
     by destruct H).
Qed.

Lemma dispatched_calls (evs : list Event) :
  Forall (λ evt, has_parent evt = true) evs →
  length (omap call_of evs) = length (filter (λ evt, dispatched evt = true) evs).
Proof.
  induction 1 as [|evt evs Hp _ IH]; [done|].
  rewrite filter_cons. revert Hp. simpl. unfold has_parent, call_of, dispatched.
  destruct (Type_ evt); simpl;
    try (intros _; first [exact IH | f_equal; exact IH]);
    (destruct (Parent evt);
     [intros _; simpl; first [exact IH | f_equal; exact IH]|]);
    intros H%bool_decide_eq_true; by destruct H.
Qed.

(** The loop of [Replay] over the records of a log, for a consumer that
    accepts every call. *)
Lemma replayLoop_recorded (p : Player) (w : list (Event * positive)) dec (c : C) :
  (∀ k c, (deliver c k).1 = None) →
  Forall (λ evt, has_parent evt = true) w.*1 →
  pending dec = Some (recorded w) →
  ∃ dec', replayLoop p dec c
          = (None, dec', foldl (λ c k, (deliver c k).2) c (omap call_of w.*1))
          ∧ frames (src dec') = frames (src dec).
Proof.
  intros Hacc. rewrite recorded_frames. revert dec c.
  induction w as [|[evt n] w IH]; intros dec c Hp Hd;
    rewrite replayLoop_step; unfold Decode; rewrite Hd; simpl.
  - eauto.
  - apply Forall_cons in Hp as [Hevt Hp]. rewrite emit_call by done.
    destruct (call_of evt) as [k|]; simpl.
    + specialize (Hacc k c). destruct (deliver c k) as [o c']. simpl in *. subst o.
      edestruct IH as (dec' & -> & Hfr); [done|reflexivity|]. eauto.
    + edestruct IH as (dec' & -> & Hfr); [done|reflexivity|]. eauto.
Qed.

End ReplayFacts.

(** C2 (amended).  For every log, for a consumer that accepts every call and
    records that carry their parent message where their type needs one:
    [Replay] delivers, in on-disk write order and once each, the records of
    type Messages, ThreadMessages and Files, however many IDs the log has; it
    returns no error and leaves the player reset.  Records of any other type
    are decoded and passed over, so the number of calls is the number of
    appended records of those three types. *)
Theorem Replay_dispatches_in_write_order (ID : Event → string)
    {C : Type} `{!Channeler C} (w : list (Event * positive)) (p0 : Player) (c : C) :
  NewPlayer ID (open (recorded w)) = Ok p0 →
  (∀ k c, (deliver c k).1 = None) →
  Forall (λ evt, has_parent evt = true) w.*1 →
  Replay p0 c = (None, p0, foldl (λ c k, (deliver c k).2) c (omap call_of w.*1))
  ∧ length (omap call_of w.*1)
    = length (filter (λ evt, dispatched evt = true) w.*1).
Proof.
  intros Hnew Hacc Hpar. split; [|by apply dispatched_calls].
  destruct (indexRecords_open ID _ (recorded_decodable w)) as (idx0 & Hix & _).
  unfold NewPlayer in Hnew. rewrite Hix in Hnew. injection Hnew as <-.
  unfold Replay, Reset, Seek. simpl.
  match goal with
  | |- context [replayLoop ?p ?d c] =>
      destruct (replayLoop_recorded p w d c Hacc Hpar) as (dec' & -> & Hfr);
        [apply locate_0|]
  end.
  unfold set_rs, set_pointer. simpl in *. by rewrite Hfr.
Qed.

(** ** A recorded log *)

Example sample_index :
  (indexRecords Event_ID (open (recorded sample_log))).1
  = Ok (list_to_map [("C1", [0; 216]); ("C1:1700000000.000100", [120]); ("C2", [280])]%Z).
Proof. vm_compute. reflexivity. Qed.

(** C3.  On a log holding one record for C1: the first retrieval for C1
    returns it; the next one, with the ID in the index and its cursor at the
    end of the offsets, fails with [io.EOF], which is not [ErrExhausted];
    retrieval for an ID that was never written fails with [ErrNotFound]. *)
Theorem exhausted_is_reported_as_EOF :
  ∃ p0 p1,
    NewPlayer Event_ID (open (recorded [(ev_messages "C1" [msg1], 120%positive)]))
    = Ok p0
    ∧ tryGetEvent "C1" p0 = (Ok (ev_messages "C1" [msg1]), p1)
    ∧ idx p1 !! "C1" = Some [0%Z] ∧ cursor "C1" p1 = 1
    ∧ (tryGetEvent "C1" p1).1 = Err io_EOF
    ∧ errors_Is io_EOF ErrExhausted = false
    ∧ (tryGetEvent "C2" p1).1 = Err ErrNotFound.
Proof.
  eexists _, _. split; [vm_compute; reflexivity|].
  split; [vm_compute; reflexivity|].
  split_and!; vm_compute; reflexivity.
Qed.

(** Counterexample to C2: a log holding one channel-listing record is replayed
    without any call to the consumer, so the calls are fewer than the records
    appended. *)
Lemma Replay_passes_over_listing_records :
  ∃ p0, NewPlayer Event_ID (open (recorded listing_log)) = Ok p0
        ∧ Replay p0 ([] : list Call) = (None, p0, [])
        ∧ length (Replay p0 ([] : list Call)).2 ≠ length listing_log.
Proof.
  eexists. split; [vm_compute; reflexivity|].
  split; [vm_compute; reflexivity|]. vm_compute. discriminate.
Qed.

Lemma Replay_dispatches_in_write_order_witness :
  ∃ p0, NewPlayer Event_ID (open (recorded sample_log)) = Ok p0
        ∧ (∀ k (c : list Call), (deliver c k).1 = None)
        ∧ Forall (λ evt, has_parent evt = true) sample_log.*1
        ∧ Replay p0 ([] : list Call)
          = (None, p0,
             foldl (λ c k, (deliver c k).2) [] (omap call_of sample_log.*1)).
Proof.
  eexists. split; [vm_compute; reflexivity|].
  split; [by intros []|]. split; [by repeat constructor|].
  apply (Replay_dispatches_in_write_order Event_ID sample_log).
  - vm_compute. reflexivity.
  - by intros [].
  - by repeat constructor.
Defined.

(** The calls a replay of the sample log makes, in order. *)
Example sample_replay :
  foldl (λ c k, (deliver c k).2) ([] : list Call) (omap call_of sample_log.*1)
  = [CallMessages "C1" [msg1]; CallThreadMessages "C1" msg1 [msg2];
     CallMessages "C1" [msg2]; CallMessages "C2" [msg1]].
Proof. reflexivity. Qed.

Lemma Reset_restores_fresh_player_witness :
  ∃ p0, NewPlayer Event_ID (open (recorded sample_log)) = Ok p0
        ∧ Reset (foldl run_op p0
                   [OpTryGetEvent "C1"; OpHasMore "C2"; OpTryGetEvent "C1"])
          = (None, p0).
Proof.
  eexists. split; [vm_compute; reflexivity|].
  apply (Reset_restores_fresh_player Event_ID (open (recorded sample_log))).
  vm_compute. reflexivity.
Defined.

(** ** The sandboxed directory *)

Lemma append_assoc (a b c : string) : (a +:+ b) +:+ c = a +:+ (b +:+ c).
Proof.
  induction a as [|x a IH]; [reflexivity|].
  change (String x ((a +:+ b) +:+ c) = String x (a +:+ (b +:+ c))).
  by rewrite IH.
Qed.

Lemma split_from_head s cur x :
  head (split_from cur s) = Some x → ∃ t, cur +:+ s = x +:+ t.
Proof.
  revert cur. induction s as [|c s IH]; intros cur; simpl.
  - intros [= <-]. by exists "".
  - case_decide.
    + simpl. intros [= <-]. by eexists.
    + intros (t & Ht)%IH. exists t. by rewrite <- Ht, append_assoc.
Qed.

Lemma parent_escape_prefix rel :
  parent_escape rel → strings_HasPrefix rel ".." = true.
Proof.
  intros (t & Ht)%split_from_head. change (rel = String "." (String "." t)) in Ht.
  subst rel. by destruct t.
Qed.

(** The check of [ensureSubdir] is a test on the text of the relative path,
    made before [Create] touches the disk. *)
Lemma Create_refuses_dotdot_prefix fs fpath disk rel :
  filepath_Rel (dir fs) (filepath_Join (dir fs) fpath) = Ok rel →
  strings_HasPrefix rel ".." = true →
  Directory_Create fs fpath disk
  = (Err (fmt_Errorf "failed to create %s: %w" (filepath_Join (dir fs) fpath)
            ErrIllegalDir), disk).
Proof.
  intros Hrel Hpre. unfold Directory_Create, ensureSubdir. by rewrite Hrel, Hpre.
Qed.

(** C5.  When the path relative to the root of [root/fpath] begins with a
    parent-directory element, [Create] fails with an error that wraps
    [ErrIllegalDir] and leaves the disk as it was: no directory is made and no
    file is created or truncated. *)
Theorem Create_rejects_parent_escape (fs : Directory) (fpath : string)
    (disk : gmap string Node) (rel : string) :
  filepath_Rel (dir fs) (filepath_Join (dir fs) fpath) = Ok rel →
  parent_escape rel →
  ∃ err, Directory_Create fs fpath disk = (Err err, disk)
         ∧ errors_Is err ErrIllegalDir = true.
Proof.
  intros Hrel Hesc%parent_escape_prefix.
  rewrite (Create_refuses_dotdot_prefix _ _ _ _ Hrel Hesc). by eexists.
Qed.

Lemma Create_rejects_parent_escape_witness :
  filepath_Rel "/out" (filepath_Join "/out" "../etc/passwd") = Ok "../etc/passwd"
  ∧ parent_escape "../etc/passwd"
  ∧ ∃ err, Directory_Create (NewDirectory "/out") "../etc/passwd"
             {["/out" := IsDir]} = (Err err, {["/out" := IsDir]})
           ∧ errors_Is err ErrIllegalDir = true.
Proof.
  split; [vm_compute; reflexivity|]. split; [vm_compute; reflexivity|].
  apply (Create_rejects_parent_escape (NewDirectory "/out") "../etc/passwd"
           {["/out" := IsDir]} "../etc/passwd");
    vm_compute; reflexivity.
Defined.

(** C10.  The check refuses every relative path whose text begins with two
    dots, a parent traversal or not: under the root [/out] the name [..foo]
    resolves to [/out/..foo], strictly below the root, its relative path
    [..foo] does not begin with a parent-directory element, and [Create] fails
    with an error that wraps [ErrIllegalDir], the disk untouched. *)
Theorem Create_rejects_names_beginning_with_dots :
  (∀ (fs : Directory) fpath disk rel,
     filepath_Rel (dir fs) (filepath_Join (dir fs) fpath) = Ok rel →
     strings_HasPrefix rel ".." = true →
     ∃ err, Directory_Create fs fpath disk = (Err err, disk)
            ∧ errors_Is err ErrIllegalDir = true)
  ∧ ∃ fpath,
      filepath_Join "/out" fpath = "/out/..foo"
      ∧ strictly_under "/out" (filepath_Join "/out" fpath) = true
      ∧ filepath_Rel "/out" (filepath_Join "/out" fpath) = Ok "..foo"
      ∧ ¬ parent_escape "..foo"
      ∧ ∀ disk, ∃ err,
          Directory_Create (NewDirectory "/out") fpath disk = (Err err, disk)
          ∧ errors_Is err ErrIllegalDir = true.
Proof.
  split.
  - intros fs fpath disk rel Hrel Hpre.
    rewrite (Create_refuses_dotdot_prefix _ _ _ _ Hrel Hpre). by eexists.
  - exists "..foo". split_and!; try (vm_compute; reflexivity).
    + vm_compute. discriminate.
    + intros disk.
      rewrite (Create_refuses_dotdot_prefix (NewDirectory "/out") "..foo" disk "..foo");
        [by eexists|vm_compute; reflexivity..].
Qed.

(** A path that stays below the root is created, with its directories. *)
Example Create_under_root :
  Directory_Create (NewDirectory "/out") "C1/thread.json" ∅
  = (Ok "/out/C1/thread.json",
     {["/out" := IsDir; "/out/C1" := IsDir; "/out/C1/thread.json" := IsFile ""]}).
Proof. vm_compute. reflexivity. Qed.

(** ** The export pipeline *)

Section PipelineFacts.

Variable run : Run.
Variable cap : nat.

#[local] Abbreviation invariant := (invariant run cap).

Lemma range_errC_nils (values : list (option error)) :
  Forall (λ v, v = None) values → range_errC values = None.
Proof. induction 1 as [|v values -> _ IH]; done. Qed.

Lemma range_errC_first (values : list (option error)) err rest :
  Forall (λ v, v = None) values →
  range_errC (values ++ Some err :: rest) = Some err.
Proof. induction 1 as [|v values -> _ IH]; done. Qed.

Lemma invariant_start : invariant start.
Proof.
  split; simpl; try done.
  - constructor.
  - lia.
  - intros w Hw. by apply elem_of_nil in Hw.
Qed.

Lemma invariant_step s s' : invariant s → step run cap s s' → invariant s'.
Proof.
  intros [Hnd Hsent Hcap Hcl Hrg Hret Hnil Hfl] Hstep.
  destruct Hstep as [s w Hws Hwr|s w Hws Hlen|s rest Hc He|s err rest Hc He
                    |s Hall Hcl'|s Hc He Hcl'].
  - (* a worker function returns *)
    split; simpl; [|done..|].
    + apply NoDup_cons. split; [|done]. rewrite elem_of_app. tauto.
    + intros w' [->|Hw']%elem_of_cons; [apply union_subseteq_r|].
      etrans; [by apply Hfl|apply union_subseteq_l].
  - (* a send completes *)
    pose proof Hnd as (Hnd1 & Hdisj & Hnd2)%NoDup_app.
    split; simpl; [| | | |done|done| |].
    + rewrite app_assoc. apply NoDup_app. split_and!.
      * apply NoDup_app. split_and!; [by apply NoDup_filter| |done].
        intros x [_ Hx]%list_elem_of_filter. by apply Hdisj.
      * intros x [[Hne _]%list_elem_of_filter|Hx]%elem_of_app
          Hx'%list_elem_of_singleton; [done|].
        subst x. by apply (Hdisj w).
      * apply NoDup_singleton.
    + by rewrite fmap_app, app_assoc, Hsent.
    + rewrite length_app. simpl. lia.
    + intros Hcl' w'. rewrite elem_of_app. left. by apply Hcl.
    + intros [Hcl' He]%Hnil. by destruct (Hdisj w Hws (Hcl Hcl' w)).
    + intros w'. rewrite !elem_of_app, list_elem_of_filter, list_elem_of_singleton.
      intros Hw'. apply Hfl. rewrite elem_of_app.
      destruct (decide (w' = w)) as [->|]; [by left|]. tauto.
  - (* the caller takes a nil *)
    split; simpl; [done| | |done| |done|done|done].
    + by rewrite <- Hsent, He, <- app_assoc.
    + rewrite He in Hcap. simpl in Hcap. lia.
    + intros _. apply Forall_app. split; [by apply Hrg|]. by constructor.
  - (* the caller takes an error *)
    split; simpl; [done| | |done|done| |done|done].
    + by rewrite <- Hsent, He, <- app_assoc.
    + rewrite He in Hcap. simpl in Hcap. lia.
    + intros r [= <-]. symmetry. apply range_errC_first. by apply Hrg.
  - (* the sentinel closes the channel *)
    split; simpl; [done..| |done].
    intros [_ He]%Hnil. done.
  - (* the range loop ends *)
    split; simpl; [done|done|done|done|done| |done|done].
    intros r [= <-]. symmetry. apply range_errC_nils. by apply Hrg.
Qed.

Lemma invariant_reachable s : rtc (step run cap) start s → invariant s.
Proof.
  revert s. apply rtc_ind_r; [apply invariant_start|].
  intros y z _ Hstep IH. by eapply invariant_step.
Qed.

(** No step takes a file away. *)
Lemma step_keeps_files s s' : step run cap s s' → tmpdir s ⊆ tmpdir s'.
Proof. destruct 1; simpl; set_solver. Qed.

(** With the caller gone and the buffer full, a worker at its send stays
    there. *)
Lemma blocked_forever s w :
  caller s ≠ Ranging → length (errC s) = cap → w ∈ sending s →
  ∀ s', rtc (step run cap) s s' → w ∈ sending s'.
Proof.
  intros Hc Hlen Hw s' Hr.
  enough (caller s' ≠ Ranging ∧ length (errC s') = cap ∧ w ∈ sending s') by tauto.
  induction Hr as [s|s s1 s' Hstep _ IH]; [done|]. apply IH.
  - destruct Hstep; simpl; try done.
  - destruct Hstep; simpl; try done; lia.
  - destruct Hstep; simpl; try done; [by constructor|lia].
Qed.

(** With a buffer of one slot per worker, a worker at its send always has
    room: the workers that are at their send or have sent are distinct, and
    the buffer holds values of workers that have sent. *)
Lemma sized_buffer_has_room s w :
  length workers ≤ cap → rtc (step run cap) start s → w ∈ sending s →
  length (errC s) < cap.
Proof.
  intros Hcap Hinv%invariant_reachable Hw.
  pose proof (inv_nodup _ _ _ Hinv) as Hnd.
  pose proof (f_equal length (inv_sent _ _ _ Hinv)) as Hsent.
  rewrite length_app, length_fmap in Hsent.
  assert (length (sending s ++ reported s) ≤ length workers) as Hall.
  { apply submseteq_length, NoDup_submseteq; [done|].
    intros x _. destruct x; repeat constructor. }
  rewrite length_app in Hall.
  destruct (sending s) as [|w0 l]; [by apply elem_of_nil in Hw|].
  unfold workers in Hall, Hcap. simpl in Hall, Hcap. lia.
Qed.

Lemma range_errC_app (values rest : list (option error)) err :
  range_errC values = Some err → range_errC (values ++ rest) = Some err.
Proof. induction values as [|[e|] values IH]; simpl; by auto. Qed.

Lemma returned_first_error s r :
  invariant s → caller s = Returned r →
  r = range_errC (returns run <$> reported s).
Proof.
  intros Hinv Hc. rewrite <- (inv_sent _ _ _ Hinv).
  pose proof (inv_returned _ _ _ Hinv r Hc) as Hr. destruct r as [err|].
  - symmetry. by apply range_errC_app.
  - destruct (inv_nil _ _ _ Hinv Hc) as [_ ->]. by rewrite app_nil_r.
Qed.

Lemma returned_nil_all_nil s :
  invariant s → caller s = Returned None → ∀ w, returns run w = None.
Proof.
  intros Hinv Hc w. destruct (inv_nil _ _ _ Hinv Hc) as [Hcl He].
  pose proof (inv_closed _ _ _ Hinv Hcl w) as Hw.
  pose proof (inv_sent _ _ _ Hinv) as Hsent. rewrite He, app_nil_r in Hsent.
  pose proof (inv_returned _ _ _ Hinv None Hc) as Hr.
  assert (returns run w ∈ received s) as Hin.
  { rewrite Hsent. by apply list_elem_of_fmap_2. }
  clear -Hr Hin. induction (received s) as [|[e|] l IH]; simpl in *.
  - by apply elem_of_nil in Hin.
  - done.
  - apply elem_of_cons in Hin as [->|Hin]; [done|]. by apply IH.
Qed.

(** The caller can always empty the buffer: it returns on the way, or is left
    ranging over an empty channel with the workers where they were. *)
Lemma caller_drains s :
  caller s = Ranging →
  ∃ s', rtc (step run cap) s s'
        ∧ ((∃ r, caller s' = Returned r)
           ∨ (caller s' = Ranging ∧ errC s' = [] ∧ sending s' = sending s
              ∧ reported s' = reported s ∧ errC_closed s' = errC_closed s)).
Proof.
  remember (errC s) as q eqn:Hq. revert s Hq.
  induction q as [|[err|] q IH]; intros s Hq Hc.
  - exists s. split; [done|]. right. by rewrite <- Hq.
  - eexists. split; [apply rtc_once, (step_recv_err _ _ s err q); done|].
    left. by eexists.
  - edestruct (IH
      {| sending := sending s; reported := reported s; errC := q;
         errC_closed := errC_closed s; received := received s ++ [None];
         caller := Ranging; tmpdir := tmpdir s |}) as (s' & Hr & Hs');
      [done|done|].
    exists s'. split; [|done]. eapply rtc_l; [|done]. by apply step_recv_nil.
Qed.

(** From a state in which the caller ranges over an empty channel, a worker
    that has not reported gets its result into the buffer. *)
Lemma worker_reports s w :
  0 < cap → errC s = [] → w ∉ reported s →
  ∃ s', rtc (step run cap) s s' ∧ caller s' = caller s ∧ w ∈ reported s'
        ∧ ∀ w', w' ∈ reported s → w' ∈ reported s'.
Proof.
  intros Hpos He Hw.
  assert (∀ s0, errC s0 = [] → w ∈ sending s0 →
    ∃ s', rtc (step run cap) s0 s' ∧ caller s' = caller s0 ∧ w ∈ reported s'
          ∧ ∀ w', w' ∈ reported s0 → w' ∈ reported s') as Hsend.
  { intros s0 He0 Hw0. eexists. split_and!.
    - apply rtc_once, (step_send _ _ s0 w); [done|rewrite He0; simpl; lia].
    - done.
    - simpl. apply elem_of_app. right. by constructor.
    - intros w' Hw'. simpl. apply elem_of_app. by left. }
  destruct (decide (w ∈ sending s)) as [Hin|Hnin]; [by apply Hsend|].
  edestruct (Hsend
    {| sending := w :: sending s; reported := reported s; errC := errC s;
       errC_closed := errC_closed s; received := received s;
       caller := caller s; tmpdir := tmpdir s ∪ flushes run w |})
    as (s' & Hr & Hc & Hw' & Hmono); [done|by constructor|].
  exists s'. split_and!; try done. eapply rtc_l; [|done]. by apply step_work.
Qed.

(** Whatever has happened so far, the run can go on to a state in which the
    caller has returned. *)
Lemma caller_can_return s :
  0 < cap → ∃ s', rtc (step run cap) s s' ∧ ∃ r, caller s' = Returned r.
Proof.
  intros Hpos.
  enough (∀ (todo : list Worker) s,
    caller s = Ranging → (∀ w, w ∈ reported s ∨ w ∈ todo) →
    ∃ s', rtc (step run cap) s s' ∧ ∃ r, caller s' = Returned r) as Hgo.
  { destruct (caller s) as [|r] eqn:Hc; [|exists s; split; [done|by eexists]].
    apply (Hgo workers); [done|]. intros w. right. destruct w; repeat constructor. }
  clear s. intros todo. induction todo as [|w todo IH]; intros s Hc Hall.
  - destruct (caller_drains s Hc)
      as (s1 & Hr1 & [Hret|(Hc1 & He1 & _ & Hrep1 & _)]); [by exists s1|].
    assert (∀ w, w ∈ reported s1) as Hall1.
    { intros w. rewrite Hrep1. destruct (Hall w) as [|[]%elem_of_nil]; done. }
    destruct (errC_closed s1) eqn:Hcl1.
    + exists (mkPipeline (sending s1) (reported s1) (errC s1) (errC_closed s1)
                (received s1) (Returned None) (tmpdir s1)).
      split; [|by eexists]. etrans; [done|]. by apply rtc_once, step_end.
    + exists (mkPipeline (sending s1) (reported s1) (errC s1) true
                (received s1) (Returned None) (tmpdir s1)).
      split; [|by eexists]. etrans; [done|].
      eapply rtc_l; [by apply step_close|].
      by apply rtc_once, (step_end _ _ (mkPipeline _ _ _ _ _ _ _)).
  - destruct (decide (w ∈ reported s)) as [Hw|Hw].
    { apply IH; [done|]. intros w'.
      destruct (Hall w') as [|[->|]%elem_of_cons]; auto. }
    destruct (caller_drains s Hc)
      as (s1 & Hr1 & [Hret|(Hc1 & He1 & _ & Hrep1 & _)]); [by exists s1|].
    destruct (worker_reports s1 w Hpos He1) as (s2 & Hr2 & Hc2 & Hw2 & Hmono);
      [by rewrite Hrep1|].
    destruct (IH s2) as (s3 & Hr3 & Hret); [by rewrite Hc2| |].
    { intros w'. destruct (Hall w') as [Hw'|[->|]%elem_of_cons]; auto.
      left. apply Hmono. by rewrite Hrep1. }
    exists s3. split; [|done]. etrans; [done|]. by etrans.
Qed.

End PipelineFacts.

Lemma blocked_state_reachable : reachable failing_run blocked_state.
Proof.
  unfold reachable, errC_cap.
  eapply rtc_l; [apply (step_work _ _ start ConversationWorker); apply not_elem_of_nil|].
  eapply rtc_l; [eapply (step_send _ _ _ ConversationWorker); simpl; [by constructor|lia]|].
  eapply rtc_l; [eapply step_recv_err; reflexivity|].
  eapply rtc_l; [eapply (step_work _ _ _ Feeder); simpl; not_among|].
  eapply rtc_l; [eapply (step_send _ _ _ Feeder); simpl; [by constructor|lia]|].
  eapply rtc_l; [eapply (step_work _ _ _ UserWorker); simpl; not_among|].
  apply rtc_refl.
Qed.

(** In every state of a run the buffer of [errC] holds at most one value; the
    values sent on it so far are the results of distinct workers, one each,
    and once the channel is closed every worker has sent exactly one. *)
Lemma errC_at_most_one_result_per_worker (run : Run) (s : Pipeline) :
  reachable run s →
  length (errC s) ≤ errC_cap
  ∧ NoDup (reported s)
  ∧ received s ++ errC s = returns run <$> reported s
  ∧ (errC_closed s = true → reported s ≡ₚ workers).
Proof.
  intros Hinv%invariant_reachable.
  pose proof (inv_nodup _ _ _ Hinv) as (_ & _ & Hnd)%NoDup_app.
  split_and!; [apply Hinv|done|apply Hinv|].
  intros Hcl. apply NoDup_Permutation; [done| |].
  { unfold workers. repeat (apply NoDup_cons; split; [not_among|]). apply NoDup_nil_2. }
  intros w. split; [intros _; destruct w; repeat constructor|intros _].
  by apply (inv_closed _ _ _ Hinv).
Qed.

(** C4.  The buffer of [errC] holds one value, not one per worker, and a
    worker's terminal send can block for good.  In the run in which the
    conversation worker fails and the other two succeed, the caller takes
    that error and returns, the feeder's nil fills the one slot, and the user
    worker, having reached its send, is still at it in every state that
    follows: it never reports, so the channel is never closed.  With the
    buffer the claim states, one slot per worker, a worker at its send has
    room in every state of every run. *)
Theorem errC_send_can_block :
  errC_cap = 1 ∧ length workers = 3
  ∧ reachable failing_run blocked_state
  ∧ UserWorker ∈ sending blocked_state
  ∧ (∀ s', rtc (step failing_run errC_cap) blocked_state s' →
       UserWorker ∈ sending s' ∧ (UserWorker ∉ reported s')
       ∧ errC_closed s' = false)
  ∧ (∀ run s w, rtc (step run (length workers)) start s → w ∈ sending s →
       length (errC s) < length workers).
Proof.
  split_and!; [done|done|apply blocked_state_reachable|by constructor| |].
  - intros s' Hr.
    assert (UserWorker ∈ sending s') as Hw.
    { revert Hr. apply blocked_forever; [done|done|by constructor]. }
    assert (reachable failing_run s') as Hreach.
    { unfold reachable. etrans; [apply blocked_state_reachable|done]. }
    apply invariant_reachable in Hreach.
    pose proof (inv_nodup _ _ _ Hreach) as (_ & Hdisj & _)%NoDup_app.
    split_and!; [done|by apply Hdisj|].
    destruct (errC_closed s') eqn:Hcl; [|done].
    destruct (Hdisj UserWorker Hw). by apply (inv_closed _ _ _ Hreach).
  - intros run s w. by apply sized_buffer_has_room.
Qed.

(** C6.  From every state of a run the caller can go on to return.  When it
    has returned, the value returned is the first non-nil error among the
    values it took from the channel, which is the first non-nil result in the
    order the workers' sends completed; it is nil only if every worker
    reported nil, and it is nil if every worker reports nil.  The files a
    worker has written when its function returns are on disk in every later
    state, whatever the other workers report and whatever the caller returns:
    no step removes a file. *)
Theorem exportV3_returns_first_error (run : Run) (s : Pipeline) :
  reachable run s →
  (∀ r, caller s = Returned r →
     r = range_errC (received s)
     ∧ received s `prefix_of` (returns run <$> reported s)
     ∧ r = range_errC (returns run <$> reported s))
  ∧ (caller s = Returned None → ∀ w, returns run w = None)
  ∧ ((∀ w, returns run w = None) → ∀ r, caller s = Returned r → r = None)
  ∧ (∀ w, w ∈ sending s ∨ w ∈ reported s → flushes run w ⊆ tmpdir s)
  ∧ (∀ s', rtc (step run errC_cap) s s' → tmpdir s ⊆ tmpdir s')
  ∧ (∃ s', rtc (step run errC_cap) s s' ∧ ∃ r, caller s' = Returned r).
Proof.
  intros Hinv%invariant_reachable. split_and!;
    [..|apply caller_can_return; unfold errC_cap; lia].
  - intros r Hc. split_and!.
    + by apply (inv_returned _ _ _ Hinv).
    + rewrite <- (inv_sent _ _ _ Hinv). by apply prefix_app_r.
    + by eapply returned_first_error.
  - intros Hc. by eapply returned_nil_all_nil.
  - intros Hall r Hc. rewrite (returned_first_error _ _ _ _ Hinv Hc).
    apply range_errC_nils, Forall_fmap, Forall_forall. intros w _. apply Hall.
  - intros w Hw. apply (inv_files _ _ _ Hinv). by apply elem_of_app.
  - intros s' Hr. clear Hinv. induction Hr as [|s0 s1 s2 Hstep _ IH]; [done|].
    etrans; [by eapply step_keeps_files|done].
Qed.

Lemma exportV3_returns_first_error_witness :
  reachable failing_run blocked_state
  ∧ caller blocked_state = Returned (Some remote_failure)
  ∧ Some remote_failure = range_errC (received blocked_state)
  ∧ flushes failing_run Feeder ⊆ tmpdir blocked_state.
Proof.
  split; [apply blocked_state_reachable|]. split; [reflexivity|].
  pose proof (exportV3_returns_first_error failing_run blocked_state
                blocked_state_reachable) as (Hret & _ & _ & Hfiles & _ & _).
  split.
  - apply (Hret (Some remote_failure) eq_refl).
  - apply Hfiles. right. repeat constructor.
Defined.

(** ** The single-item dump *)

Section DumpFacts.

Context {F : Type} `{!FS F}.
Context {Conversation Template : Type}.
Variable Execute : Template → Conversation → result string.
Variable json_Encode : Conversation → result string.
Variable txt_Conversation : Conversation → result string.

#[local] Abbreviation dump := (@dump F Conversation Template).
#[local] Abbreviation dumpOne := (dumpOne Execute json_Encode txt_Conversation).
#[local] Abbreviation Dump := (Dump Execute json_Encode txt_Conversation).
#[local] Abbreviation dump_callback :=
  (dump_callback Execute json_Encode txt_Conversation).
#[local] Abbreviation attempts := (attempts Execute json_Encode txt_Conversation).

Lemma Producer_dump_callback (app : dump) tmpl entries total w :
  Producer entries (dump_callback app tmpl) (total, w)
  = (None, (total + length (filter succeeded (attempts app tmpl entries w).1),
            (attempts app tmpl entries w).2)).
Proof.
  revert total w. induction entries as [|channelID rest IH]; intros total w; simpl.
  - by rewrite Nat.add_0_r.
  - destruct (dumpOne _ _ _ _ _ w) as [[err|] w1]; simpl.
    + rewrite IH. destruct (attempts app tmpl rest _) as [outcomes w2].
      cbn [fst snd]. by rewrite filter_cons_False by done.
    + rewrite IH. destruct (attempts app tmpl rest _) as [outcomes w2].
      cbn [fst snd]. rewrite filter_cons_True by done.
      cbn [length]. do 2 f_equal. lia.
Qed.

Lemma attempts_entries (app : dump) tmpl entries w :
  (attempts app tmpl entries w).1.*1 = entries.
Proof.
  revert w. induction entries as [|channelID rest IH]; intros w; simpl; [done|].
  destruct (dumpOne _ _ _ _ _ w) as [r w1].
  specialize (IH match r with
                 | Some err => {| disk := disk w1;
                                  logged := logged w1 ++ [LogSkipped channelID err] |}
                 | None => w1
                 end).
  destruct (attempts app tmpl rest _) as [outcomes w2]. simpl in *.
  f_equal. exact IH.
Qed.

Lemma dumpOne_logs_no_skip (app : dump) (fs : F) tmpl channelID fn w :
  filter is_skip (logged (dumpOne app fs tmpl channelID fn w).2)
  = filter is_skip (logged w).
Proof.
  unfold dumpOne, writeFiles, writeJSON, writeText.
  destruct (fn channelID) as [cnv|]; [|done].
  destruct (Execute tmpl cnv) as [name|]; [|done].
  destruct (FS_Create fs (name +:+ ".json") (disk w)) as [[f|] d]; [|done].
  destruct (json_Encode cnv); [|done]. simpl.
  destruct (Output_IsText (cfg app)); [|done]. simpl.
  destruct (FS_Create fs (name +:+ ".txt") _) as [[f'|] d']; simpl;
    [destruct (txt_Conversation cnv); simpl|];
    by rewrite filter_app, app_nil_r.
Qed.

Lemma attempts_skip_log (app : dump) tmpl entries w :
  filter is_skip (logged (attempts app tmpl entries w).2)
  = filter is_skip (logged w) ++ omap skipped_line (attempts app tmpl entries w).1.
Proof.
  revert w. induction entries as [|channelID rest IH]; intros w; simpl.
  - by rewrite app_nil_r.
  - pose proof (dumpOne_logs_no_skip app (Filesystem (sess app)) tmpl
                  channelID (sess_Dump (sess app)) w) as Hone.
    destruct (dumpOne _ _ _ _ _ w) as [r w1]. simpl in Hone.
    specialize (IH match r with
                   | Some err => {| disk := disk w1;
                                    logged := logged w1 ++ [LogSkipped channelID err] |}
                   | None => w1
                   end).
    destruct (attempts app tmpl rest _) as [outcomes w2]. simpl in *.
    rewrite IH. destruct r as [err|]; simpl.
    + by rewrite filter_app, Hone, <- app_assoc.
    + by rewrite Hone.
Qed.

(** C9.  With a valid input and templates that compile, [Dump] tries every
    entry of the input in order; an entry whose [dumpOne] fails is logged as
    skipped and the next entry follows; the run never ends on such a failure:
    it returns no error and the number of entries dumped. *)
Theorem Dump_skips_failing_entries (app : dump) (tmpl : Template) (w : World) :
  Input_IsValid (cfg app) = true →
  CompileTemplates (cfg app) = Ok tmpl →
  let outcomes := (attempts app tmpl (Input_entries (cfg app)) w).1 in
  let w' := (attempts app tmpl (Input_entries (cfg app)) w).2 in
  Dump app w = (length (filter succeeded outcomes), None, w')
  ∧ outcomes.*1 = Input_entries (cfg app)
  ∧ filter is_skip (logged w')
    = filter is_skip (logged w) ++ omap skipped_line outcomes.
Proof.
  intros Hvalid Htmpl outcomes w'. split_and!.
  - unfold Dump. rewrite Hvalid, Htmpl. simpl.
    by rewrite Producer_dump_callback.
  - apply attempts_entries.
  - apply attempts_skip_log.
Qed.

End DumpFacts.

Lemma Dump_skips_failing_entries_witness :
  Input_IsValid (cfg sample_dump) = true
  ∧ CompileTemplates (cfg sample_dump) = Ok ()
  ∧ (Dump (λ _ cnv, Ok cnv) (λ cnv, Ok cnv) (λ cnv, Ok cnv)
       sample_dump {| disk := ∅; logged := [] |}).1 = (2, None).
Proof.
  split; [reflexivity|]. split; [reflexivity|].
  destruct (Dump_skips_failing_entries (λ _ cnv, Ok cnv)
              (λ cnv, Ok cnv) (λ cnv, Ok cnv) sample_dump ()
              {| disk := ∅; logged := [] |} eq_refl eq_refl) as [-> _].
  vm_compute. reflexivity.
Defined.

(** * Further properties *)

(** ** The player under any sequence of calls *)

Section PlayerMore.

Variable ID : Event → string.

#[local] Abbreviation offsets_from := (offsets_from ID).
#[local] Abbreviation events_with := (events_with ID).
#[local] Abbreviation in_step := (in_step ID).

(** What a retrieval does to the cursors: only a successful one moves a
    cursor, by one, and only the cursor of the ID asked for. *)
Lemma tryGetEvent_cursors id p :
  (∀ id', id' ≠ id → cursor id' (tryGetEvent id p).2 = cursor id' p)
  ∧ cursor id (tryGetEvent id p).2
    = (if (tryGetEvent id p).1 is Ok _ then S (cursor id p) else cursor id p)
  ∧ (∀ e, (tryGetEvent id p).1 = Ok e →
       ∃ offsets, idx p !! id = Some offsets ∧ cursor id p < length offsets).
Proof.
  unfold tryGetEvent, cursor.
  destruct (idx p !! id) as [offsets|]; [|done]. simpl.
  assert (∀ id', id' ≠ id →
    default 0 (pointer (if pointer p !! id is None
                        then set_pointer (<[id:=0]> (pointer p)) p else p) !! id')
    = default 0 (pointer p !! id')) as Hother.
  { intros id' Hne. destruct (pointer p !! id); simpl; [done|].
    by rewrite lookup_insert_ne. }
  assert (default 0 (pointer (if pointer p !! id is None
                              then set_pointer (<[id:=0]> (pointer p)) p else p) !! id)
          = default 0 (pointer p !! id)) as Hsame.
  { destruct (pointer p !! id) eqn:Hk; simpl; [by rewrite Hk|].
    by rewrite lookup_insert_eq. }
  case_decide as Hlen; simpl; [done|].
  unfold Seek. case_decide; simpl; [done|].
  unfold Decode, NewDecoder. simpl.
  destruct (locate _ _) as [[|f rest]|]; simpl; try done.
  destruct (payload f) as [e|]; simpl; try done.
  split_and!.
  - intros id' Hne. rewrite lookup_insert_ne by done. by apply Hother.
  - rewrite lookup_insert_eq. simpl. f_equal.
    rewrite lookup_total_alt. destruct (pointer p !! id) eqn:Hk; simpl.
    + by rewrite Hk.
    + by rewrite lookup_insert_eq.
  - intros _ _. eexists. split; [done|]. lia.
Qed.

Lemma hasMore_cursors id p id' : cursor id' (hasMore id p).2 = cursor id' p.
Proof.
  unfold hasMore, cursor. destruct (idx p !! id); [|done]. simpl.
  destruct (pointer p !! id) eqn:Hk; simpl; [done|].
  destruct (decide (id' = id)) as [->|Hne].
  - by rewrite lookup_insert_eq, Hk.
  - by rewrite lookup_insert_ne.
Qed.

Lemma index_lengths fs (idx0 : gmap string (list Z)) id offsets :
  decodable fs →
  (∀ id, idx0 !! id = match offsets_from 0 fs id with [] => None | l => Some l end) →
  idx0 !! id = Some offsets → length offsets = length (events_with fs id).
Proof.
  intros Hd Hl. rewrite Hl.
  destruct (offsets_from 0 fs id) eqn:Ho; [done|]. intros [= <-].
  by rewrite <- Ho, offsets_from_length.
Qed.

Lemma in_step_run_op fs idx0 p op :
  decodable fs →
  (∀ id, idx0 !! id = match offsets_from 0 fs id with [] => None | l => Some l end) →
  in_step fs idx0 p → in_step fs idx0 (run_op p op).
Proof.
  intros Hd Hl (Hi & Hf & Hc).
  destruct (run_op_preserves p op) as [Hi' Hf'].
  split_and!; [by rewrite Hi'|by rewrite Hf'|].
  intros id'. destruct op as [id|id|]; simpl.
  - destruct (tryGetEvent_cursors id p) as (Hother & Hsame & Hok).
    destruct (decide (id' = id)) as [->|Hne]; [|by rewrite Hother].
    rewrite Hsame. destruct (tryGetEvent id p).1 as [e|] eqn:Hr; [|done].
    destruct (Hok e eq_refl) as (offsets & Hoffs & Hlt).
    rewrite Hi in Hoffs. rewrite (index_lengths _ _ _ _ Hd Hl Hoffs) in Hlt. lia.
  - by rewrite hasMore_cursors.
  - unfold cursor. simpl. rewrite lookup_empty. simpl. lia.
Qed.

Lemma in_step_foldl fs idx0 ops p :
  decodable fs →
  (∀ id, idx0 !! id = match offsets_from 0 fs id with [] => None | l => Some l end) →
  in_step fs idx0 p → in_step fs idx0 (foldl run_op p ops).
Proof.
  intros Hd Hl. revert p. induction ops as [|op ops IH]; intros p Hp; [done|].
  simpl. by apply IH, in_step_run_op.
Qed.

(** X1.  On a player over a recorded log, after any sequence of retrievals,
    [hasMore] queries and resets, for whatever IDs: the cursor of an ID never
    passes the number of events recorded for it; while events remain, the
    next retrieval returns the event at the cursor, moves that cursor by one
    and leaves every other cursor; once none remain (and the ID was written)
    it returns [io.EOF] and moves no cursor. *)
Theorem retrieval_after_any_calls (w : list (Event * positive))
    (ops : list PlayerOp) (id : string) :
  ∃ p0, NewPlayer ID (open (recorded w)) = Ok p0
    ∧ let p := foldl run_op p0 ops in
      let evs := filter (λ e, ID e = id) w.*1 in
      cursor id p ≤ length evs
      ∧ (∀ e, evs !! cursor id p = Some e →
           (tryGetEvent id p).1 = Ok e
           ∧ cursor id (tryGetEvent id p).2 = S (cursor id p)
           ∧ ∀ id', id' ≠ id → cursor id' (tryGetEvent id p).2 = cursor id' p)
      ∧ (evs ≠ [] → cursor id p = length evs →
           (tryGetEvent id p).1 = Err io_EOF
           ∧ ∀ id', cursor id' (tryGetEvent id p).2 = cursor id' p).
Proof.
  pose proof (recorded_decodable w) as Hd.
  destruct (indexRecords_open ID _ Hd) as (idx0 & Hix & Hl).
  unfold NewPlayer. rewrite Hix. eexists. split; [done|]. cbv zeta.
  match goal with
  | |- context [foldl run_op ?q ops] => set (p := foldl run_op q ops)
  end.
  set (evs := filter (λ e, ID e = id) w.*1).
  assert (in_step (recorded w) idx0 p) as (Hi & Hf & Hc).
  { apply in_step_foldl; [done|done|]. split_and!; [done|done|].
    intros id'. unfold cursor. simpl. rewrite lookup_empty. simpl. lia. }
  assert (events_with (recorded w) id = evs) as Hevs by apply recorded_events.
  destruct (tryGetEvent_cursors id p) as (Hother & Hsame & _).
  split_and!.
  - rewrite <- Hevs. apply Hc.
  - intros e He.
    assert (idx p !! id = Some (offsets_from 0 (recorded w) id)) as Hoffs.
    { rewrite Hi, Hl. destruct (offsets_from 0 (recorded w) id) eqn:Ho; [|done].
      apply lookup_lt_Some in He.
      rewrite <- Hevs, <- (offsets_from_length ID 0), Ho in He by done.
      simpl in He. lia. }
    destruct (lookup_lt_is_Some_2 (offsets_from 0 (recorded w) id) (cursor id p))
      as [o Ho].
    { rewrite offsets_from_length, Hevs by done. by eapply lookup_lt_Some. }
    destruct (locate_offsets ID 0 _ id _ o Hd Ho) as (f & rest & e' & Hloc & Hpay & He').
    rewrite Z.sub_0_r in Hloc. rewrite Hevs, He in He'. injection He' as <-.
    destruct (tryGetEvent_hit id p _ o f rest e Hoffs Ho) as (p' & Hr & _ & _ & Hc').
    { by eapply offsets_from_ge, list_elem_of_lookup_2. }
    { by rewrite Hf. }
    { done. }
    rewrite Hr. simpl. rewrite Hr in Hother. done.
  - intros Hne Hend.
    assert (idx p !! id = Some (offsets_from 0 (recorded w) id)) as Hoffs.
    { rewrite Hi, Hl. destruct (offsets_from 0 (recorded w) id) eqn:Ho; [|done].
      destruct Hne. apply length_zero_iff_nil.
      by rewrite <- Hevs, <- (offsets_from_length ID 0), Ho. }
    assert ((tryGetEvent id p).1 = Err io_EOF) as Hr.
    { apply (tryGetEvent_exhausted _ _ _ Hoffs).
      rewrite offsets_from_length, Hevs by done. lia. }
    split; [done|]. intros id'.
    destruct (decide (id' = id)) as [->|Hne']; [|by apply Hother].
    by rewrite Hsame, Hr.
Qed.

Lemma events_with_nil fs id :
  decodable fs → (offsets_from 0 fs id = [] ↔ events_with fs id = []).
Proof.
  intros Hd. rewrite <- !length_zero_iff_nil. by rewrite offsets_from_length.
Qed.

Lemma filter_ID_nil (l : list Event) id :
  filter (λ e, ID e = id) l = [] ↔ id ∉ ID <$> l.
Proof.
  induction l as [|e l IH]; simpl.
  - split; [intros _; apply not_elem_of_nil|done].
  - rewrite filter_cons, not_elem_of_cons. case_decide as He.
    + split; [done|]. intros [Hne _]. by destruct Hne.
    + rewrite IH. split; [by intros ?; split|by intros [_ ?]].
Qed.

(** X2.  On a player over a recorded log, after any sequence of calls,
    retrieval for an ID fails with [ErrNotFound] exactly when no event with
    that ID was appended; such a retrieval and [hasMore] for that ID (which
    answers false) leave the player as it was, no cursor entry created. *)
Theorem not_found_iff_never_written (w : list (Event * positive))
    (ops : list PlayerOp) (id : string) :
  ∃ p0, NewPlayer ID (open (recorded w)) = Ok p0
    ∧ let p := foldl run_op p0 ops in
      ((tryGetEvent id p).1 = Err ErrNotFound ↔ id ∉ ID <$> w.*1)
      ∧ (id ∉ ID <$> w.*1 →
           tryGetEvent id p = (Err ErrNotFound, p) ∧ hasMore id p = (false, p)).
Proof.
  pose proof (recorded_decodable w) as Hd.
  destruct (indexRecords_open ID _ Hd) as (idx0 & Hix & Hl).
  unfold NewPlayer. rewrite Hix. eexists. split; [done|]. cbv zeta.
  match goal with
  | |- context [foldl run_op ?q ops] => set (p := foldl run_op q ops)
  end.
  destruct (foldl_run_op_preserves ops
              {| rs := open (recorded w); pointer := ∅; idx := idx0 |}) as [Hi _].
  fold p in Hi. simpl in Hi.
  assert (idx p !! id = None ↔ id ∉ ID <$> w.*1) as Hnone.
  { rewrite Hi, Hl, <- filter_ID_nil, <- recorded_events, <- events_with_nil by done.
    by destruct (offsets_from 0 (recorded w) id). }
  split.
  - split.
    + intros Hr. apply Hnone. revert Hr. unfold tryGetEvent.
      destruct (idx p !! id) as [offsets|]; [|done]. simpl.
      case_decide; [done|]. unfold Seek. case_decide; [done|].
      unfold Decode, NewDecoder. simpl.
      destruct (locate _ _) as [[|f rest]|]; try done.
      by destruct (payload f).
    + intros Hid%Hnone. by rewrite tryGetEvent_not_found.
  - intros Hid%Hnone. split; [by apply tryGetEvent_not_found|].
    unfold hasMore. by rewrite Hid.
Qed.

Lemma offsets_from_sorted base fs id :
  StronglySorted Z.lt (offsets_from base fs id).
Proof.
  revert base. induction fs as [|f fs IH]; intros base; simpl; [constructor|].
  assert (Forall (Z.lt base) (offsets_from (base + Z.pos (size f)) fs id)) as Hlt.
  { apply Forall_forall. intros o Ho%offsets_from_ge. lia. }
  destruct (payload f) as [e|]; [|apply IH].
  case_decide; [|apply IH]. simpl. constructor; [apply IH|done].
Qed.

(** X3.  The index built over a decodable log has a key exactly for the IDs
    that occur in it; the offsets under a key are never an empty list, are
    as many as the records with that ID, are not negative, and increase
    strictly. *)
Theorem index_well_formed (fs : list Frame) :
  decodable fs →
  ∃ idx0, indexRecords ID (open fs) = (Ok idx0, open fs)
    ∧ (∀ id, idx0 !! id = None ↔ events_with fs id = [])
    ∧ ∀ id offsets, idx0 !! id = Some offsets →
        offsets ≠ []
        ∧ length offsets = length (events_with fs id)
        ∧ Forall (λ o, 0 ≤ o)%Z offsets
        ∧ StronglySorted Z.lt offsets.
Proof.
  intros Hd. destruct (indexRecords_open ID _ Hd) as (idx0 & Hix & Hl).
  exists idx0. split_and!; [done|..].
  - intros id. rewrite Hl, <- events_with_nil by done.
    by destruct (offsets_from 0 fs id).
  - intros id offsets Hoffs.
    pose proof (index_lengths _ _ _ _ Hd Hl Hoffs) as Hlen.
    rewrite Hl in Hoffs.
    destruct (offsets_from 0 fs id) as [|o l] eqn:Ho; [done|].
    injection Hoffs as <-. rewrite <- Ho. split_and!.
    + by rewrite Ho.
    + by rewrite offsets_from_length.
    + apply Forall_forall. by intros ? ?%offsets_from_ge.
    + apply offsets_from_sorted.
Qed.

Lemma indexLoop_pending dec dec' idx0 :
  pending dec = pending dec' → InputOffset dec = InputOffset dec' →
  (indexLoop ID dec idx0).1 = (indexLoop ID dec' idx0).1.
Proof.
  destruct (pending dec) as [fs|] eqn:Hp; revert dec dec' idx0 Hp.
  - induction fs as [|f fs IH]; intros dec dec' idx0 Hp Hp' Ho;
      rewrite !indexLoop_step; unfold Decode; rewrite Hp, <- Hp'; [done|].
    destruct (payload f); [|done]. rewrite Ho. by apply IH.
  - intros dec dec' idx0 Hp Hp' Ho.
    rewrite !indexLoop_step. unfold Decode. by rewrite Hp, <- Hp'.
Qed.

Lemma indexRecords_result r :
  (indexRecords ID r).1 = (indexLoop ID (NewDecoder r) ∅).1.
Proof.
  unfold indexRecords. by destruct (indexLoop ID (NewDecoder r) ∅) as [[|] ?].
Qed.

(** X4.  [indexRecords] scans from wherever the stream stands, without
    rewinding first, and counts offsets from there: on a stream positioned at
    the start of a later record it returns the index of the remaining records
    alone, their offsets counted from zero. *)
Theorem indexRecords_scans_from_position (r : ReadSeeker) (rest : list Frame) :
  locate (frames r) (pos r) = Some rest →
  (indexRecords ID r).1 = (indexRecords ID (open rest)).1.
Proof.
  intros Hloc. rewrite !indexRecords_result.
  apply indexLoop_pending; [|done]. simpl. by rewrite Hloc, locate_0.
Qed.

(** X5.  Calling [Player.Messages] for a channel once more than there are
    events recorded for it returns the message batches of those events in
    append order and then [io.EOF]. *)
Theorem Messages_pages_in_append_order (w : list (Event * positive))
    (id : string) :
  let evs := filter (λ e, ID e = id) w.*1 in
  evs ≠ [] →
  ∃ p0 p', NewPlayer ID (open (recorded w)) = Ok p0
    ∧ messagesAll id (S (length evs)) p0
      = (((λ e, Ok (Messages e)) <$> evs) ++ [Err io_EOF], p').
Proof.
  intros evs Hne. pose proof (recorded_decodable w) as Hd.
  destruct (indexRecords_open ID _ Hd) as (idx0 & Hix & Hl).
  unfold NewPlayer. rewrite Hix. eexists.
  assert (events_with (recorded w) id = evs) as Hevs by apply recorded_events.
  assert (idx0 !! id = Some (offsets_from 0 (recorded w) id)) as Hoffs.
  { rewrite Hl. destruct (offsets_from 0 (recorded w) id) eqn:Ho; [|done].
    destruct Hne. by rewrite <- Hevs, <- events_with_nil. }
  enough (∀ n k p, idx p = idx0 → frames (rs p) = recorded w → cursor id p = k →
    k + n = length evs →
    ∃ p', messagesAll id (S n) p
          = (((λ e, Ok (Messages e)) <$> drop k evs) ++ [Err io_EOF], p')) as Hgo.
  { destruct (Hgo (length evs) 0
                {| rs := open (recorded w); pointer := ∅; idx := idx0 |})
      as (p' & Hp'); try done.
    exists p'. split; [done|]. by rewrite Hp', drop_0. }
  induction n as [|n IH]; intros k p Hi Hf Hc Hlen.
  - unfold messagesAll, Player_Messages.
    pose proof (tryGetEvent_exhausted id p _ ltac:(by rewrite Hi)) as Hr.
    rewrite offsets_from_length, Hevs in Hr by done.
    destruct (tryGetEvent id p) as [r p1]. simpl in Hr. rewrite Hr by lia.
    exists p1. by rewrite drop_ge by lia.
  - destruct (lookup_lt_is_Some_2 (offsets_from 0 (recorded w) id) k) as [o Ho].
    { rewrite offsets_from_length, Hevs by done. lia. }
    destruct (locate_offsets ID 0 _ id k o Hd Ho)
      as (f & rest & e & Hloc & Hpay & He).
    rewrite Z.sub_0_r in Hloc. rewrite Hevs in He.
    destruct (tryGetEvent_hit id p (offsets_from 0 (recorded w) id) o f rest e)
      as (p1 & Hr & Hi1 & Hf1 & Hc1).
    { by rewrite Hi. }
    { by rewrite Hc. }
    { by eapply offsets_from_ge, list_elem_of_lookup_2. }
    { by rewrite Hf. }
    { done. }
    destruct (IH (S k) p1) as (p' & Hp'); [congruence|congruence|lia|lia|].
    exists p'. change (messagesAll id (S (S n)) p)
      with (let '(r, p) := Player_Messages id p in
            let '(rest, p) := messagesAll id (S n) p in (r :: rest, p)).
    unfold Player_Messages at 1. rewrite Hr, Hp'.
    by rewrite (drop_S _ _ _ He).
Qed.

End PlayerMore.

(** ** Replay, whatever the consumer answers *)

Section ReplayMore.

Context {C : Type} `{!Channeler C}.

Lemma replayLoop_frames (p : Player) fs dec (c : C) :
  pending dec = fs →
  frames (src (replayLoop p dec c).1.2) = frames (src dec).
Proof.
  destruct fs as [fs|]; revert dec c.
  - induction fs as [|f fs IH]; intros dec c Hp;
      rewrite replayLoop_step; unfold Decode; rewrite Hp; [done|].
    destruct (payload f) as [evt|]; [|done].
    destruct (emit p c evt) as [[err|] c']; [done|]. by rewrite IH.
  - intros dec c Hp. rewrite replayLoop_step. unfold Decode. by rewrite Hp.
Qed.

(** The player [Replay] leaves. *)
Lemma Replay_player (p : Player) (c : C) :
  (Replay p c).1.2 = {| rs := open (frames (rs p)); pointer := ∅; idx := idx p |}.
Proof.
  unfold Replay, Reset, Seek. simpl.
  match goal with
  | |- context [replayLoop ?q ?d c] =>
      pose proof (replayLoop_frames q _ d c eq_refl) as Hfr;
      destruct (replayLoop q d c) as [[err dec'] c']
  end.
  simpl in *. unfold set_rs, open. simpl. by rewrite Hfr.
Qed.

(** X6.  [Replay] resets the state of the player, as its comment says:
    whatever the stream holds, whatever the consumer answers and however the
    replay ends, the player it leaves has no cursor, its stream at the start
    and its index unchanged, so every retrieval starts again from the first
    event. *)
Theorem Replay_resets_the_player (p : Player) (c : C) :
  pointer (Replay p c).1.2 = ∅
  ∧ rs (Replay p c).1.2 = open (frames (rs p))
  ∧ idx (Replay p c).1.2 = idx p
  ∧ (Replay p c).1.2 = (Reset p).2
  ∧ ∀ id, cursor id (Replay p c).1.2 = 0.
Proof.
  rewrite Replay_player. by split_and!.
Qed.

(** The loop of [Replay] over a first part of the records whose calls the
    consumer takes one after the other. *)
Lemma replayLoop_prefix (p : Player) (w : list (Event * positive))
    (rest : list Frame) dec (c : C) :
  Forall (λ evt, has_parent evt = true) w.*1 →
  pending dec = Some (recorded w ++ rest) →
  match deliver_all c (omap call_of w.*1) with
  | (Some err, c') => ∃ dec', replayLoop p dec c = (Some err, dec', c')
  | (None, c') =>
      ∃ dec', replayLoop p dec c = replayLoop p dec' c'
              ∧ pending dec' = Some rest
  end.
Proof.
  rewrite recorded_frames. revert dec c.
  induction w as [|[evt n] w IH]; intros dec c Hp Hd; simpl.
  - by exists dec.
  - apply Forall_cons in Hp as [Hevt Hp].
    rewrite replayLoop_step. unfold Decode. rewrite Hd. simpl.
    rewrite emit_call by done.
    destruct (call_of evt) as [k|]; simpl.
    + destruct (deliver c k) as [[err|] c1]; [by eexists|].
      by apply IH.
    + by apply IH.
Qed.

(** X7.  [Replay] delivers the calls for the records in write order until
    the consumer returns an error; it returns that error, delivers nothing
    for the records after it, keeps what the consumer took before, and
    leaves the player reset.  With a consumer that takes every call it
    returns nil. *)
Theorem Replay_stops_at_first_error (ID : Event → string)
    (w : list (Event * positive)) (p0 : Player) (c : C) :
  NewPlayer ID (open (recorded w)) = Ok p0 →
  Forall (λ evt, has_parent evt = true) w.*1 →
  Replay p0 c = ((deliver_all c (omap call_of w.*1)).1, p0,
                 (deliver_all c (omap call_of w.*1)).2).
Proof.
  intros Hnew Hpar.
  destruct (indexRecords_open ID _ (recorded_decodable w)) as (idx0 & Hix & _).
  unfold NewPlayer in Hnew. rewrite Hix in Hnew. injection Hnew as <-.
  pose proof (Replay_player
    {| rs := open (recorded w); pointer := ∅; idx := idx0 |} c) as Hpl.
  revert Hpl. unfold Replay, Reset, Seek. simpl.
  match goal with
  | |- context [replayLoop ?q ?d c] =>
      pose proof (replayLoop_prefix q w [] d c Hpar) as Hloop
  end.
  rewrite app_nil_r in Hloop. specialize (Hloop (locate_0 _)).
  destruct (deliver_all c (omap call_of w.*1)) as [[err|] c'].
  - destruct Hloop as (dec' & ->). simpl. by intros ->.
  - destruct Hloop as (dec' & -> & Hp').
    rewrite replayLoop_step. unfold Decode. rewrite Hp'. simpl. by intros ->.
Qed.

(** X8.  A record that does not decode ends the replay with the decoder's
    error: the calls for the records before it have been delivered and stay
    delivered, nothing is delivered for the records after it, and the player
    is left reset. *)
Theorem Replay_aborts_on_malformed_record (p : Player)
    (w : list (Event * positive)) (n : positive) (rest : list Frame) (c : C) :
  frames (rs p) = recorded w ++ {| payload := None; size := n |} :: rest →
  (∀ k c, (deliver c k).1 = None) →
  Forall (λ evt, has_parent evt = true) w.*1 →
  Replay p c = (Some json_SyntaxError,
                {| rs := open (frames (rs p)); pointer := ∅; idx := idx p |},
                foldl (λ c k, (deliver c k).2) c (omap call_of w.*1)).
Proof.
  intros Hfs Hacc Hpar.
  pose proof (Replay_player p c) as Hpl. revert Hpl.
  unfold Replay, Reset, Seek. simpl.
  match goal with
  | |- context [replayLoop ?q ?d c] =>
      pose proof (replayLoop_prefix q w _ d c Hpar
                    ltac:(simpl; rewrite Hfs; apply locate_0)) as Hloop
  end.
  assert (∀ calls c0, deliver_all c0 calls
                      = (None, foldl (λ c k, (deliver c k).2) c0 calls)) as Hall.
  { induction calls as [|k calls IH]; intros c0; simpl; [done|].
    specialize (Hacc k c0). destruct (deliver c0 k) as [o c1].
    simpl in *. subst o. apply IH. }
  rewrite Hall in Hloop. destruct Hloop as (dec' & -> & Hp').
  rewrite replayLoop_step. unfold Decode. rewrite Hp'. simpl. by intros ->.
Qed.

(** X9.  [emit] dereferences [Parent] without a nil check: a record of type
    ThreadMessages or Files that carries no parent message ends the replay in
    a nil-dereference panic, after the calls for the records before it and
    before any call for it or for a later record. *)
Theorem Replay_panics_without_parent (p : Player)
    (w : list (Event * positive)) (evt : Event) (n : positive)
    (rest : list Frame) (c : C) :
  frames (rs p) = recorded w ++ {| payload := Some evt; size := n |} :: rest →
  has_parent evt = false →
  (∀ k c, (deliver c k).1 = None) →
  Forall (λ evt, has_parent evt = true) w.*1 →
  (Replay p c).1.1 = Some nil_dereference
  ∧ (Replay p c).2 = foldl (λ c k, (deliver c k).2) c (omap call_of w.*1).
Proof.
  intros Hfs Hnp Hacc Hpar.
  unfold Replay, Reset, Seek. simpl.
  match goal with
  | |- context [replayLoop ?q ?d c] =>
      pose proof (replayLoop_prefix q w _ d c Hpar
                    ltac:(simpl; rewrite Hfs; apply locate_0)) as Hloop
  end.
  assert (∀ calls c0, deliver_all c0 calls
                      = (None, foldl (λ c k, (deliver c k).2) c0 calls)) as Hall.
  { induction calls as [|k calls IH]; intros c0; simpl; [done|].
    specialize (Hacc k c0). destruct (deliver c0 k) as [o c1].
    simpl in *. subst o. apply IH. }
  rewrite Hall in Hloop. destruct Hloop as (dec' & -> & Hp').
  rewrite replayLoop_step. unfold Decode. rewrite Hp'. simpl.
  assert (∀ q c0, emit q c0 evt = (Some nil_dereference, c0)) as Hemit.
  { intros q c0. revert Hnp. unfold has_parent, emit.
    destruct (Type_ evt); try done;
      (destruct (Parent evt); [|done]; intros H%bool_decide_eq_false;
       destruct H; by eexists). }
  by rewrite Hemit.
Qed.

End ReplayMore.

(** ** The directory adapter and the disk *)

Lemma os_Stat_insert_dir k d (disk : gmap string Node) :
  os_Stat k disk = Ok IsDir → os_Stat k (<[d := IsDir]> disk) = Ok IsDir.
Proof.
  unfold os_Stat. destruct (always_exists k); [done|].
  destruct (decide (d = k)) as [->|Hne].
  - by rewrite lookup_insert_eq.
  - by rewrite lookup_insert_ne.
Qed.

(** [os.MkdirAll] adds directories only where nothing was: what exists stays,
    and what it visited is a directory afterwards. *)
Lemma mkdir_parts_keeps parts (disk : gmap string Node) k n :
  disk !! k = Some n → (mkdir_parts parts disk).2 !! k = Some n.
Proof.
  revert disk. induction parts as [|d parts IH]; intros disk Hk; simpl; [done|].
  unfold os_Stat. destruct (always_exists d); [by apply IH|].
  destruct (disk !! d) as [[|content]|] eqn:Hd; [by apply IH|done|].
  apply IH. rewrite lookup_insert_ne; [done|]. by intros ->; rewrite Hk in Hd.
Qed.

Lemma mkdir_parts_dirs_stay parts (disk : gmap string Node) k :
  os_Stat k disk = Ok IsDir → os_Stat k (mkdir_parts parts disk).2 = Ok IsDir.
Proof.
  revert disk. induction parts as [|d parts IH]; intros disk Hk; simpl; [done|].
  destruct (os_Stat d disk) as [[|content]|err]; [by apply IH|done|].
  by apply IH, os_Stat_insert_dir.
Qed.

Lemma mkdir_parts_made parts (disk : gmap string Node) k :
  (mkdir_parts parts disk).1 = None → k ∈ parts →
  os_Stat k (mkdir_parts parts disk).2 = Ok IsDir.
Proof.
  revert disk. induction parts as [|d parts IH]; intros disk Hok Hk; simpl in *.
  - by apply elem_of_nil in Hk.
  - destruct (os_Stat d disk) as [[|content]|err] eqn:Hd; [|done|].
    + apply elem_of_cons in Hk as [->|Hk]; [by apply mkdir_parts_dirs_stay|].
      by apply IH.
    + apply elem_of_cons in Hk as [->|Hk]; [|by apply IH].
      apply mkdir_parts_dirs_stay. unfold os_Stat.
      destruct (always_exists d); [done|]. by rewrite lookup_insert_eq.
Qed.

Lemma append_nil_r (s : string) : s +:+ "" = s.
Proof.
  induction s as [|c s IH]; [done|].
  change (String c (s +:+ "") = String c s). by rewrite IH.
Qed.

Lemma split_from_not_nil cur s : split_from cur s ≠ [].
Proof.
  revert cur. induction s as [|c s IH]; intros cur; simpl; [done|].
  case_decide; [done|apply IH].
Qed.

(** Splitting a path at its separators and joining the elements gives the
    path back. *)
Lemma join_split_from cur s : join (split_from cur s) = cur +:+ s.
Proof.
  revert cur. induction s as [|c s IH]; intros cur; simpl.
  - by rewrite append_nil_r.
  - case_decide as Hc.
    + subst c. specialize (IH "").
      destruct (split_from "" s) as [|e rest] eqn:Hs;
        [by apply split_from_not_nil in Hs|].
      change (cur +:+ "/" +:+ join (e :: rest) = cur +:+ String Separator s).
      by rewrite IH.
    + by rewrite IH, append_assoc.
Qed.

Lemma join_split s : join (split s) = s.
Proof. apply join_split_from. Qed.

Lemma leading_parts_self name :
  name ≠ "" → name ≠ "/" → name ∈ leading_parts name.
Proof.
  intros Hne Hroot. unfold leading_parts.
  apply list_elem_of_filter. split; [done|].
  apply list_elem_of_fmap. exists (length (split name)). split.
  - by rewrite firstn_all, join_split.
  - apply elem_of_seq. pose proof (split_from_not_nil "" name) as Hs.
    unfold split. destruct (split_from "" name); [done|]. simpl. lia.
Qed.

Lemma mkdirAll_keeps name (disk : gmap string Node) k n :
  disk !! k = Some n → (mkdirAll name disk).2 !! k = Some n.
Proof.
  intros Hk. unfold mkdirAll. case_decide; [done|].
  destruct (os_Stat name disk) as [[|content]|err]; [done|..];
    by apply mkdir_parts_keeps.
Qed.

(** X10.  [mkdirAll] refuses the empty name and touches nothing; when it
    succeeds, the name is a directory afterwards, everything that existed
    before is still there unchanged, and calling it again changes nothing. *)
Theorem mkdirAll_makes_the_directory (name : string) (disk : gmap string Node) :
  (mkdirAll "" disk = (Some (errors_New "empty directory"), disk))
  ∧ ((mkdirAll name disk).1 = None →
       os_Stat name (mkdirAll name disk).2 = Ok IsDir
       ∧ mkdirAll name (mkdirAll name disk).2 = (None, (mkdirAll name disk).2))
  ∧ (∀ k n, disk !! k = Some n → (mkdirAll name disk).2 !! k = Some n).
Proof.
  split_and!; [done| |by intros; apply mkdirAll_keeps].
  intros Hok.
  assert (name ≠ "") as Hne.
  { intros ->. by vm_compute in Hok. }
  assert (os_Stat name (mkdirAll name disk).2 = Ok IsDir) as Hdir.
  { revert Hok. unfold mkdirAll. rewrite decide_False by done.
    destruct (os_Stat name disk) as [[|content]|err] eqn:Hst; [done|..];
      intros Hok; apply mkdir_parts_made; try done;
      apply leading_parts_self; try done;
      intros ->; by vm_compute in Hst. }
  split; [done|]. unfold mkdirAll at 1. rewrite decide_False by done.
  by rewrite Hdir.
Qed.

Lemma os_Create_keeps name (disk : gmap string Node) k n :
  disk !! k = Some n → k ≠ name → (os_Create name disk).2 !! k = Some n.
Proof.
  intros Hk Hne. unfold os_Create.
  destruct (os_Stat (filepath_Dir name) disk) as [[|c]|e]; [|done..].
  destruct (os_Stat name disk) as [[|c]|e]; [done|..];
    simpl; by rewrite lookup_insert_ne.
Qed.

Lemma os_Create_dir_stays name (disk : gmap string Node) :
  disk !! name = Some IsDir →
  (os_Create name disk).2 !! name = Some IsDir
  ∧ ∀ f, (os_Create name disk).1 ≠ Ok f.
Proof.
  intros Hk. unfold os_Create.
  destruct (os_Stat (filepath_Dir name) disk) as [[|c]|e]; [|done..].
  unfold os_Stat. destruct (always_exists name); [done|]. by rewrite Hk.
Qed.

Lemma file_Write_keeps f data (disk : gmap string Node) k n :
  disk !! k = Some n → k ≠ f → file_Write f data disk !! k = Some n.
Proof.
  intros Hk Hne. unfold file_Write.
  destruct (disk !! f) as [[|c]|]; [done| |done]. by rewrite lookup_insert_ne.
Qed.

Lemma os_Create_ok node (d1 : gmap string Node) f d :
  os_Create node d1 = (Ok f, d) →
  f = node ∧ d = <[node := IsFile ""]> d1
  ∧ os_Stat (filepath_Dir node) d = Ok IsDir.
Proof.
  unfold os_Create.
  destruct (os_Stat (filepath_Dir node) d1) as [[|c]|e] eqn:Hpar; [|done..].
  assert (os_Stat node d1 ≠ Ok IsDir →
    os_Stat (filepath_Dir node) (<[node := IsFile ""]> d1) = Ok IsDir) as Hst.
  { intros Hnd. revert Hpar. unfold os_Stat.
    destruct (always_exists (filepath_Dir node)); [done|].
    destruct (decide (filepath_Dir node = node)) as [Heq|Hne].
    - rewrite Heq. intros Hpar. destruct Hnd. unfold os_Stat.
      destruct (always_exists node); [done|].
      by destruct (d1 !! node) as [[|c]|].
    - by rewrite lookup_insert_ne. }
  destruct (os_Stat node d1) as [[|c]|e]; [done|..];
    intros [= <- <-]; split_and!; try done; by apply Hst.
Qed.

Lemma Directory_Create_ok (fs : Directory) fpath (disk : gmap string Node) f d :
  Directory_Create fs fpath disk = (Ok f, d) →
  f = filepath_Join (dir fs) fpath ∧ d !! f = Some (IsFile "").
Proof.
  unfold Directory_Create.
  destruct (ensureSubdir fs _); [done|].
  destruct (mkdirAll _ disk) as [[err|] d1]; [done|].
  intros (-> & -> & _)%os_Create_ok. by rewrite lookup_insert_eq.
Qed.

Lemma Directory_Create_keeps (fs : Directory) fpath (disk : gmap string Node) k n :
  disk !! k = Some n → k ≠ filepath_Join (dir fs) fpath →
  (Directory_Create fs fpath disk).2 !! k = Some n.
Proof.
  intros Hk Hne. unfold Directory_Create.
  destruct (ensureSubdir fs _); [done|].
  pose proof (mkdirAll_keeps (filepath_Dir (filepath_Join (dir fs) fpath))
                disk k n Hk) as Hk1.
  destruct (mkdirAll _ disk) as [[err|] d1]; [done|].
  by apply os_Create_keeps.
Qed.

Lemma file_Write_fresh f data (disk : gmap string Node) :
  disk !! f = Some (IsFile "") → file_Write f data disk !! f = Some (IsFile data).
Proof. intros Hf. unfold file_Write. by rewrite Hf, lookup_insert_eq. Qed.

(** X11.  Whatever [Create] and [WriteFile] return, every entry of the disk
    other than the node they were asked for is still there and unchanged
    afterwards: neither removes a file or a directory or alters another
    file; and a node that is a directory stays one, [Create] failing. *)
Theorem Create_and_WriteFile_keep_the_rest (fs : Directory) (fpath data : string)
    (disk : gmap string Node) :
  let node := filepath_Join (dir fs) fpath in
  (∀ k n, disk !! k = Some n → k ≠ node →
     (Directory_Create fs fpath disk).2 !! k = Some n
     ∧ (Directory_WriteFile fs fpath data disk).2 !! k = Some n)
  ∧ (disk !! node = Some IsDir →
       (Directory_Create fs fpath disk).2 !! node = Some IsDir
       ∧ ∀ f, (Directory_Create fs fpath disk).1 ≠ Ok f).
Proof.
  intros node. split.
  - intros k n Hk Hne. unfold Directory_Create, Directory_WriteFile. fold node.
    destruct (ensureSubdir fs node); [done|].
    pose proof (mkdirAll_keeps (filepath_Dir node) disk k n Hk) as Hk1.
    destruct (mkdirAll (filepath_Dir node) disk) as [[err|] d1]; [done|].
    simpl in Hk1. split; [by apply os_Create_keeps|].
    unfold os_WriteFile.
    pose proof (os_Create_keeps node d1 k n Hk1 Hne) as Hk2.
    destruct (os_Create node d1) as [[f|err] d2] eqn:Hcr; [|done].
    simpl in *. apply file_Write_keeps; [done|].
    revert Hcr. unfold os_Create.
    destruct (os_Stat (filepath_Dir node) d1) as [[|c]|e]; [|done..].
    destruct (os_Stat node d1) as [[|c]|e]; [done|..]; by intros [= <- _].
  - intros Hk. unfold Directory_Create. fold node.
    destruct (ensureSubdir fs node); [done|].
    pose proof (mkdirAll_keeps (filepath_Dir node) disk node _ Hk) as Hk1.
    destruct (mkdirAll (filepath_Dir node) disk) as [[err|] d1]; [done|].
    by apply os_Create_dir_stays.
Qed.

(** X12.  What a successful [Create] or [WriteFile] leaves: the node is
    [filepath.Join(dir, fpath)], its parent is a directory, and the node is a
    file that is empty after [Create] (truncated, whatever it held) and
    holds exactly the data after [WriteFile]. *)
Theorem Create_and_WriteFile_results (fs : Directory) (fpath data : string)
    (disk : gmap string Node) :
  let node := filepath_Join (dir fs) fpath in
  (∀ f d, Directory_Create fs fpath disk = (Ok f, d) →
     f = node ∧ d !! node = Some (IsFile "")
     ∧ os_Stat (filepath_Dir node) d = Ok IsDir)
  ∧ (∀ d, Directory_WriteFile fs fpath data disk = (None, d) →
       d !! node = Some (IsFile data)
       ∧ os_Stat (filepath_Dir node) d = Ok IsDir).
Proof.
  intros node. pose proof (os_Create_ok node) as Hcreate.
  split.
  - intros f d. unfold Directory_Create. fold node.
    destruct (ensureSubdir fs node); [done|].
    destruct (mkdirAll (filepath_Dir node) disk) as [[err|] d1]; [done|].
    intros (-> & -> & Hpar)%Hcreate. split_and!; [done| |done].
    by rewrite lookup_insert_eq.
  - intros d. unfold Directory_WriteFile, os_WriteFile. fold node.
    destruct (ensureSubdir fs node); [done|].
    destruct (mkdirAll (filepath_Dir node) disk) as [[err|] d1]; [done|].
    destruct (os_Create node d1) as [[f|err] d2] eqn:Hcr; [|done].
    apply Hcreate in Hcr as (-> & -> & Hpar). intros [= <-].
    unfold file_Write. rewrite lookup_insert_eq. split.
    + by rewrite lookup_insert_eq.
    + revert Hpar. unfold os_Stat.
      destruct (always_exists (filepath_Dir node)); [done|].
      destruct (decide (filepath_Dir node = node)) as [Heq|Hne].
      * rewrite Heq, !lookup_insert_eq. done.
      * by rewrite !lookup_insert_ne.
Qed.

(** X13.  [WriteFile] makes the same check as [Create] before it touches the
    disk: when the path relative to the root begins with two dots it fails
    with an error that wraps [ErrIllegalDir], and the disk is as it was. *)
Theorem WriteFile_rejects_escape (fs : Directory) (name data : string)
    (disk : gmap string Node) (rel : string) :
  filepath_Rel (dir fs) (filepath_Join (dir fs) name) = Ok rel →
  strings_HasPrefix rel ".." = true →
  ∃ err, Directory_WriteFile fs name data disk = (Some err, disk)
         ∧ errors_Is err ErrIllegalDir = true.
Proof.
  intros Hrel Hpre. unfold Directory_WriteFile, ensureSubdir.
  rewrite Hrel, Hpre. by eexists.
Qed.

Lemma strip_common_spec base targ brest trest :
  strip_common base targ = (brest, trest) →
  ∃ common, base = common ++ brest ∧ targ = common ++ trest.
Proof.
  revert targ. induction base as [|b base IH]; intros targ.
  - intros [= <- <-]. by exists [].
  - destruct targ as [|t targ]; simpl.
    + intros [= <- <-]. by exists [].
    + case_decide as Hbt.
      * intros (common & -> & ->)%IH. subst t. by exists (b :: common).
      * intros [= <- <-]. by exists [].
Qed.

Lemma join_dotdot_prefix (l : list string) :
  strings_HasPrefix (join (".." :: l)) ".." = true.
Proof. by destruct l. Qed.

(** What a path that passes [ensureSubdir] is: the root itself or, element by
    element, a path that begins with the root. *)
Lemma ensureSubdir_under (fs : Directory) (node : string) :
  ensureSubdir fs node = None →
  filepath_Clean (dir fs) ≠ "." →
  rel_elements (filepath_Clean (dir fs)) `prefix_of` rel_elements (filepath_Clean node).
Proof.
  unfold ensureSubdir, filepath_Rel. intros Hens Hdot. revert Hens.
  case_decide as Heq; [by rewrite Heq|].
  rewrite (decide_False (P := filepath_Clean (dir fs) = ".")) by done.
  destruct (negb _); [done|].
  destruct (strip_common _ _) as [brest trest] eqn:Hs.
  apply strip_common_spec in Hs as (common & Hb & Ht).
  destruct brest as [|b brest].
  - intros _. rewrite Hb, Ht, app_nil_r. by apply prefix_app_r.
  - destruct trest as [|t trest].
    + change (replicate (length (b :: brest)) "..")
        with (".." :: replicate (length brest) "..").
      by rewrite join_dotdot_prefix.
    + case_decide; [done|].
      change (replicate (length (b :: brest)) ".." ++ t :: trest)
        with (".." :: (replicate (length brest) ".." ++ t :: trest)).
      by rewrite join_dotdot_prefix.
Qed.

(** X14.  Under a root other than the working directory, [Create] and
    [WriteFile] succeed, or change the disk at all, only for a node that is
    the root or lies below it: element by element, the cleaned node begins
    with the cleaned root. *)
Theorem Create_and_WriteFile_stay_under_the_root (fs : Directory)
    (fpath data : string) (disk : gmap string Node) :
  filepath_Clean (dir fs) ≠ "." →
  (∃ f, (Directory_Create fs fpath disk).1 = Ok f)
  ∨ (Directory_Create fs fpath disk).2 ≠ disk
  ∨ (Directory_WriteFile fs fpath data disk).1 = None
  ∨ (Directory_WriteFile fs fpath data disk).2 ≠ disk →
  rel_elements (filepath_Clean (dir fs))
    `prefix_of` rel_elements (filepath_Clean (filepath_Join (dir fs) fpath)).
Proof.
  intros Hdot Hdone. apply ensureSubdir_under; [|done].
  revert Hdone. unfold Directory_Create, Directory_WriteFile.
  destruct (ensureSubdir fs (filepath_Join (dir fs) fpath)); [|done].
  simpl. intros [[f ?]|[?|[?|?]]]; done.
Qed.

(** ** The base processor *)

(** X15.  [newBaseProc] never overwrites recorded data.  When the chunk
    file exists and is not empty, in a directory that exists, it executes
    [runtime.Breakpoint()] and, if resumed, returns the error that the file
    exists and is not empty; it meets the trap in no other case.  Whenever it
    fails, trapped or not, the disk is as it was.  It changes the disk only
    when it succeeds, and then by creating the one file
    [filepath.Join(dir, name+ext)], empty, in a directory that exists, where a
    file was absent or empty. *)
Theorem newBaseProc_keeps_recorded_data (ext dir name : string)
    (disk : gmap string Node) :
  let filename := filepath_Join dir (name +:+ ext) in
  (∀ err d, returned (newBaseProc ext dir name disk) = (Err err, d) → d = disk)
  ∧ (∀ content, os_Stat dir disk = Ok IsDir →
       os_Stat filename disk = Ok (IsFile content) → content ≠ "" →
       newBaseProc ext dir name disk
       = Breakpoint
           (Err (errors_New ("file " +:+ filename +:+ " exists and not empty")),
            disk))
  ∧ (trapped (newBaseProc ext dir name disk) = true →
       os_Stat dir disk = Ok IsDir
       ∧ ∃ content, os_Stat filename disk = Ok (IsFile content) ∧ content ≠ "")
  ∧ (∀ p d, returned (newBaseProc ext dir name disk) = (Ok p, d) →
       newBaseProc ext dir name disk = Runs (Ok p, d)
       ∧ p = {| bp_dir := dir; bp_wf := filename |}
       ∧ d = <[filename := IsFile ""]> disk
       ∧ os_Stat dir disk = Ok IsDir
       ∧ (os_Stat filename disk = Ok (IsFile "") ∨ ∃ e, os_Stat filename disk = Err e)).
Proof.
  intros filename.
  assert (∀ d1 (r : result string) d, os_Create filename d1 = (r, d) →
    match r with
    | Ok f => f = filename ∧ d = <[filename := IsFile ""]> d1
    | Err _ => d = d1
    end) as Hcreate.
  { intros d1 r d. unfold os_Create.
    destruct (os_Stat (filepath_Dir filename) d1) as [[|c]|e];
      [|by intros [= <- <-]..].
    destruct (os_Stat filename d1) as [[|c]|e]; by intros [= <- <-]. }
  unfold newBaseProc. fold filename. split_and!.
  - intros err d. destruct (os_Stat dir disk) as [[|c]|e]; [|by intros [= _ <-]..].
    destruct (os_Stat filename disk) as [[|c]|e]; [by intros [= _ <-]|..].
    + case_decide; [|by intros [= _ <-]].
      destruct (os_Create filename disk) as [[f|e] d1] eqn:Hcr; [done|].
      apply Hcreate in Hcr. by intros [= _ <-].
    + destruct (os_Create filename disk) as [[f|e'] d1] eqn:Hcr; [done|].
      apply Hcreate in Hcr. by intros [= _ <-].
  - intros content Hdir Hst Hne. rewrite Hdir, Hst. by rewrite decide_False.
  - destruct (os_Stat dir disk) as [[|c]|e]; [|done..].
    destruct (os_Stat filename disk) as [[|c]|e]; [done|..].
    + case_decide as Hc; [|by eauto].
      by destruct (os_Create filename disk) as [[f|e] d1].
    + by destruct (os_Create filename disk) as [[f|e'] d1].
  - intros p d. destruct (os_Stat dir disk) as [[|c]|e]; [|done..].
    destruct (os_Stat filename disk) as [[|c]|e] eqn:Hst; [done|..].
    + case_decide as Hc; [|done]. subst c.
      destruct (os_Create filename disk) as [[f|e] d1] eqn:Hcr; [|done].
      apply Hcreate in Hcr as [-> ->]. intros [= <- <-]. split_and!; auto.
    + destruct (os_Create filename disk) as [[f|e'] d1] eqn:Hcr; [|done].
      apply Hcreate in Hcr as [-> ->]. intros [= <- <-]. split_and!; eauto.
Qed.

(** A second processor over a chunk file that holds data meets the trap. *)
Example newBaseProc_traps_on_recorded_data :
  newBaseProc ".json.gz" "/tmp/dump" "users"
    {["/tmp/dump" := IsDir; "/tmp/dump/users.json.gz" := IsFile "recorded"]}
  = Breakpoint
      (Err (errors_New "file /tmp/dump/users.json.gz exists and not empty"),
       {["/tmp/dump" := IsDir; "/tmp/dump/users.json.gz" := IsFile "recorded"]}).
Proof. vm_compute. reflexivity. Qed.

(** X16.  Whichever of them fails, [baseproc.Close] closes the recorder, the
    gzip writer and the file, each once and in that order, and returns the
    first error among the three. *)
Theorem Close_closes_all_three {S : Type}
    (Recorder_Close gz_Close wf_Close : S → option error * S) (s : S) :
  baseproc_Close Recorder_Close gz_Close wf_Close s
  = (match (Recorder_Close s).1 with
     | Some err => Some err
     | None =>
         match (gz_Close (Recorder_Close s).2).1 with
         | Some err => Some err
         | None => (wf_Close (gz_Close (Recorder_Close s).2).2).1
         end
     end,
     (wf_Close (gz_Close (Recorder_Close s).2).2).2).
Proof.
  unfold baseproc_Close.
  destruct (Recorder_Close s) as [[e1|] s1]; simpl; [done|].
  destruct (gz_Close s1) as [[e2|] s2]; simpl; [done|].
  by destruct (wf_Close s2).
Qed.

(** ** The feeders *)

(** X17.  Whatever the selects do, [listChannelGenerator] puts on [links] a
    first part of the inclusion list, in its order and nothing else; it
    returns nil exactly when it has put all of it there, and the context's
    error otherwise. *)
Theorem listChannelGenerator_feeds_in_order (selects : list Select)
    (Include links : list string) :
  ∃ k, (listChannelGenerator selects Include links).2 = links ++ take k Include
       ∧ k ≤ length Include
       ∧ ((listChannelGenerator selects Include links).1 = None ↔ k = length Include)
       ∧ (k < length Include →
            (listChannelGenerator selects Include links).1 = Some context_Canceled).
Proof.
  revert selects links. induction Include as [|ch rest IH]; intros selects links.
  - exists 0. simpl. rewrite app_nil_r. split_and!; [done..|lia].
  - destruct selects as [|[|] selects]; simpl.
    + destruct (IH [] (links ++ [ch])) as (k & -> & Hk & Hnil & Hc).
      exists (S k). simpl. rewrite <- app_assoc. split_and!; [done|lia| |].
      * rewrite Hnil. lia.
      * intros ?. apply Hc. lia.
    + exists 0. simpl. rewrite app_nil_r. split_and!; [done|lia|split; [done|lia]|done].
    + destruct (IH selects (links ++ [ch])) as (k & -> & Hk & Hnil & Hc).
      exists (S k). simpl. rewrite <- app_assoc. split_and!; [done|lia| |].
      * rewrite Hnil. lia.
      * intros ?. apply Hc. lia.
Qed.

(** X18.  The callback of [apiChannelGenerator] puts on [links], in listing
    order, a first part of the IDs of the listed channels that pass its two
    filters (a member when only members are asked for, and not excluded by
    the list) and nothing else: an excluded channel or, with member-only, a
    channel the caller is not in is never fed; it returns nil exactly when it
    has fed them all. *)
Theorem apiChannelCallback_feeds_the_filtered (memberOnly : bool)
    (chIdx : gmap string bool) (selects : list Select) (c : list Channel)
    (links : list string) :
  let fed := Channel_ID <$> filter (passes memberOnly chIdx) c in
  ∃ k, (apiChannelCallback memberOnly chIdx selects c links).2
       = links ++ take k fed
       ∧ k ≤ length fed
       ∧ ((apiChannelCallback memberOnly chIdx selects c links).1 = None
          ↔ k = length fed).
Proof.
  revert selects links. induction c as [|ch rest IH]; intros selects links.
  - exists 0. simpl. by rewrite app_nil_r.
  - simpl. rewrite filter_cons.
    destruct (memberOnly && negb (IsMember ch)) eqn:Hm.
    { rewrite decide_False; [apply IH|].
      apply andb_true_iff in Hm as [-> Hn]. intros [Hmem _].
      rewrite Hmem in Hn; done. }
    case_bool_decide as Hx.
    { rewrite decide_False; [apply IH|]. by intros [_ ?]. }
    rewrite decide_True.
    2:{ split; [|done]. intros ->. simpl in Hm. by destruct (IsMember ch). }
    destruct selects as [|[|] selects]; simpl.
    + destruct (IH [] (links ++ [Channel_ID ch])) as (k & -> & Hk & Hnil).
      exists (S k). simpl in Hk, Hnil |- *. rewrite <- app_assoc.
      split_and!; [done|by apply le_n_S|]. rewrite Hnil.
      split; [by intros ->|by intros [= ->]].
    + exists 0. simpl. rewrite app_nil_r. split_and!; [done|lia|split; [done|lia]].
    + destruct (IH selects (links ++ [Channel_ID ch])) as (k & -> & Hk & Hnil).
      exists (S k). simpl in Hk, Hnil |- *. rewrite <- app_assoc.
      split_and!; [done|by apply le_n_S|]. rewrite Hnil.
      split; [by intros ->|by intros [= ->]].
Qed.

(** ** Dumping through the directory adapter *)

Section DumpMore.

Context {Conversation Template : Type}.
Variable Execute : Template → Conversation → result string.
Variable json_Encode : Conversation → result string.
Variable txt_Conversation : Conversation → result string.

#[local] Abbreviation dump := (@dump Directory Conversation Template).
#[local] Abbreviation dumpOne := (dumpOne Execute json_Encode txt_Conversation).

(** X19.  When [dumpOne] succeeds on a directory adapter, the remote call, the
    name template and the encoder have succeeded, and the file
    [<name>.json] under the adapter's directory holds exactly the encoded
    conversation, whatever was there before; with text output the file
    [<name>.txt] holds exactly the rendered text, and one line, for that
    file, is logged; without it nothing is logged. *)
Theorem dumpOne_stores_the_conversation (app : dump) (fs : Directory)
    (tmpl : Template) (channelInput : string)
    (fn : string → result Conversation) (w w' : World) :
  dumpOne app fs tmpl channelInput fn w = (None, w') →
  ∃ cnv name data,
    fn channelInput = Ok cnv ∧ Execute tmpl cnv = Ok name
    ∧ json_Encode cnv = Ok data
    ∧ let json := filepath_Join (dir fs) (name +:+ ".json") in
      let txt := filepath_Join (dir fs) (name +:+ ".txt") in
      if Output_IsText (cfg app)
      then ∃ text, txt_Conversation cnv = Ok text
             ∧ disk w' !! txt = Some (IsFile text)
             ∧ (json ≠ txt → disk w' !! json = Some (IsFile data))
             ∧ logged w' = logged w ++ [LogGenerating (name +:+ ".txt")]
      else disk w' !! json = Some (IsFile data) ∧ logged w' = logged w.
Proof.
  unfold dumpOne, writeFiles, writeJSON, writeText.
  destruct (fn channelInput) as [cnv|] eqn:Hfn; [|done].
  destruct (Execute tmpl cnv) as [name|] eqn:Hname; [|done].
  change (FS_Create fs) with (Directory_Create fs).
  destruct (Directory_Create fs (name +:+ ".json") (disk w)) as [[f|] d] eqn:Hc;
    [|done].
  apply Directory_Create_ok in Hc as [-> Hf].
  destruct (json_Encode cnv) as [data|] eqn:Hdata; [|done]. cbn [disk logged].
  pose proof (file_Write_fresh _ data _ Hf) as Hjson.
  destruct (Output_IsText (cfg app)).
  - pose proof (Directory_Create_keeps fs (name +:+ ".txt") _ _ _ Hjson) as Hkeep.
    destruct (Directory_Create fs (name +:+ ".txt") _) as [[f'|] d'] eqn:Hc';
      [|done].
    apply Directory_Create_ok in Hc' as [-> Hf'].
    destruct (txt_Conversation cnv) as [text|] eqn:Htext; [|done].
    intros [= <-]. exists cnv, name, data. split_and!; try done.
    cbv zeta. exists text. cbn [disk logged]. split_and!; [done| | |done].
    + by apply file_Write_fresh.
    + intros Hne. apply file_Write_keeps; [|done]. by apply Hkeep.
  - intros [= <-]. exists cnv, name, data. by split_and!.
Qed.

End DumpMore.

(** ** Listing *)

Section ListFacts.

Context {User : Type}.
Variable format_NewJSON format_NewText : @Converter User.

#[local] Abbreviation List := (List format_NewJSON format_NewText).

(** X20.  With an output file name other than "-", [List] creates or
    truncates the file before it looks at the list flags or asks the remote:
    what the file held is gone whatever [List] returns.  With no list flag,
    or when the remote call fails, the file is left empty and the error is
    returned; otherwise the file holds exactly what the formatter wrote, the
    text one with text output and the JSON one without.  The channels flag
    wins over the users flag.  Nothing goes to the standard output. *)
Theorem List_truncates_the_output (cfg : ListParams) (sess : @ListSession User)
    (c : Console) (old : string) :
  Output_Filename cfg ≠ "-" →
  os_Stat (Output_Filename cfg) (con_disk c) = Ok (IsFile old) →
  os_Stat (filepath_Dir (Output_Filename cfg)) (con_disk c) = Ok IsDir →
  let formatter := if List_IsText cfg then format_NewText else format_NewJSON in
  let outcome : string * option error :=
    if ListFlags_Channels cfg then
      match GetChannels sess with
      | Err err => ("", Some err)
      | Ok ch => Converter_Channels formatter (sess_Users sess) ch
      end
    else if ListFlags_Users cfg then
      match GetUsers sess with
      | Err err => ("", Some err)
      | Ok u => Converter_Users formatter u
      end
    else ("", Some (errors_New "no valid list flag")) in
  (List cfg sess c).1 = outcome.2
  ∧ con_disk (List cfg sess c).2
    = <[Output_Filename cfg := IsFile outcome.1]> (con_disk c)
  ∧ con_stdout (List cfg sess c).2 = con_stdout c.
Proof.
  intros Hne Hold Hpar formatter outcome. subst outcome.
  unfold List, createFile, os_Create. rewrite decide_False by done.
  rewrite Hpar, Hold. fold formatter. cbn [fst snd].
  assert (∀ data,
    file_Write (Output_Filename cfg) data
      (<[Output_Filename cfg := IsFile ""]> (con_disk c))
    = <[Output_Filename cfg := IsFile data]> (con_disk c)) as Hw.
  { intros data. unfold file_Write. rewrite lookup_insert_eq.
    by rewrite insert_insert_eq. }
  destruct (ListFlags_Channels cfg).
  - destruct (GetChannels sess) as [ch|err]; [|done].
    destruct (Converter_Channels formatter (sess_Users sess) ch) as [data err].
    simpl. by rewrite Hw.
  - destruct (ListFlags_Users cfg); [|done].
    destruct (GetUsers sess) as [u|err]; [|done].
    destruct (Converter_Users formatter u) as [data err].
    simpl. by rewrite Hw.
Qed.

(** X21.  With the output file name "-", [List] never touches the disk, not
    even a file of that name: what the formatter writes is appended to the
    standard output, exactly that and after what was there, and when the
    remote call fails or no list flag is set nothing is written and the error
    is returned.  The channels flag wins over the users flag. *)
Theorem List_to_stdout (cfg : ListParams) (sess : @ListSession User)
    (c : Console) :
  Output_Filename cfg = "-" →
  let formatter := if List_IsText cfg then format_NewText else format_NewJSON in
  let outcome : string * option error :=
    if ListFlags_Channels cfg then
      match GetChannels sess with
      | Err err => ("", Some err)
      | Ok ch => Converter_Channels formatter (sess_Users sess) ch
      end
    else if ListFlags_Users cfg then
      match GetUsers sess with
      | Err err => ("", Some err)
      | Ok u => Converter_Users formatter u
      end
    else ("", Some (errors_New "no valid list flag")) in
  (List cfg sess c).1 = outcome.2
  ∧ con_disk (List cfg sess c).2 = con_disk c
  ∧ con_stdout (List cfg sess c).2 = con_stdout c +:+ outcome.1.
Proof.
  intros Hout formatter outcome. subst outcome.
  unfold List, createFile. rewrite Hout, decide_True by done.
  fold formatter. cbn [fst snd].
  destruct (ListFlags_Channels cfg).
  - destruct (GetChannels sess) as [ch|err]; [|by rewrite append_nil_r].
    by destruct (Converter_Channels formatter (sess_Users sess) ch) as [data err].
  - destruct (ListFlags_Users cfg); [|by rewrite append_nil_r].
    destruct (GetUsers sess) as [u|err]; [|by rewrite append_nil_r].
    by destruct (Converter_Users formatter u) as [data err].
Qed.

End ListFacts.

(** ** The further properties on the sample data *)

Lemma index_well_formed_witness :
  decodable (recorded sample_log)
  ∧ ∃ idx0,
      indexRecords Event_ID (open (recorded sample_log))
      = (Ok idx0, open (recorded sample_log))
      ∧ (idx0 !! "C9" = None ↔ events_with Event_ID (recorded sample_log) "C9" = []).
Proof.
  split; [vm_compute; repeat (constructor; [by eexists|]); constructor|].
  destruct (index_well_formed Event_ID (recorded sample_log)) as (idx0 & Hix & Hkey & _).
  - vm_compute. repeat (constructor; [by eexists|]). constructor.
  - exists idx0. split; [exact Hix|apply Hkey].
Defined.

Lemma Messages_pages_in_append_order_witness :
  filter (λ e, Event_ID e = "C1") sample_log.*1 ≠ []
  ∧ ∃ p0 p', NewPlayer Event_ID (open (recorded sample_log)) = Ok p0
      ∧ messagesAll "C1" 3 p0 = ([Ok [msg1]; Ok [msg2]; Err io_EOF], p').
Proof.
  split; [vm_compute; discriminate|].
  apply (Messages_pages_in_append_order Event_ID sample_log "C1").
  vm_compute. discriminate.
Defined.

Lemma Replay_stops_at_first_error_witness :
  ∃ p0, NewPlayer Event_ID (open (recorded sample_log)) = Ok p0
    ∧ Forall (λ evt, has_parent evt = true) sample_log.*1
    ∧ Replay p0 {| taken := []; room := 2 |}
      = (Some (errors_New "no room"), p0,
         {| taken := [CallMessages "C1" [msg1];
                      CallThreadMessages "C1" msg1 [msg2]];
            room := 0 |}).
Proof.
  eexists. split; [vm_compute; reflexivity|].
  split; [by repeat constructor|].
  rewrite (Replay_stops_at_first_error Event_ID sample_log).
  - reflexivity.
  - vm_compute. reflexivity.
  - by repeat constructor.
Defined.

Lemma Replay_aborts_on_malformed_record_witness :
  frames (rs (sample_player [{| payload := None; size := 7 |}]))
  = recorded sample_log ++ [{| payload := None; size := 7 |}]
  ∧ (∀ k (c : list Call), (deliver c k).1 = None)
  ∧ Forall (λ evt, has_parent evt = true) sample_log.*1
  ∧ (Replay (sample_player [{| payload := None; size := 7 |}])
       ([] : list Call)).1.1
    = Some json_SyntaxError.
Proof.
  split; [reflexivity|]. split; [by intros []|]. split; [by repeat constructor|].
  rewrite (Replay_aborts_on_malformed_record
             (sample_player [{| payload := None; size := 7 |}])
             sample_log 7 [] []).
  - reflexivity.
  - reflexivity.
  - by intros [].
  - by repeat constructor.
Defined.

Lemma Replay_panics_without_parent_witness :
  frames (rs (sample_player
                [{| payload := Some (ev_orphan "C1" [msg2]); size := 50 |};
                 {| payload := Some (ev_messages "C3" [msg1]); size := 60 |}]))
  = recorded sample_log
    ++ {| payload := Some (ev_orphan "C1" [msg2]); size := 50 |}
       :: [{| payload := Some (ev_messages "C3" [msg1]); size := 60 |}]
  ∧ has_parent (ev_orphan "C1" [msg2]) = false
  ∧ (∀ k (c : list Call), (deliver c k).1 = None)
  ∧ Forall (λ evt, has_parent evt = true) sample_log.*1
  ∧ (Replay (sample_player
               [{| payload := Some (ev_orphan "C1" [msg2]); size := 50 |};
                {| payload := Some (ev_messages "C3" [msg1]); size := 60 |}])
       ([] : list Call)).1.1
    = Some nil_dereference.
Proof.
  split; [reflexivity|]. split; [reflexivity|]. split; [by intros []|].
  split; [by repeat constructor|].
  apply (Replay_panics_without_parent
           (sample_player
              [{| payload := Some (ev_orphan "C1" [msg2]); size := 50 |};
               {| payload := Some (ev_messages "C3" [msg1]); size := 60 |}])
           sample_log (ev_orphan "C1" [msg2]) 50
           [{| payload := Some (ev_messages "C3" [msg1]); size := 60 |}] []).
  - reflexivity.
  - reflexivity.
  - by intros [].
  - by repeat constructor.
Defined.

Lemma WriteFile_rejects_escape_witness :
  filepath_Rel "/out" (filepath_Join "/out" "../etc/passwd") = Ok "../etc/passwd"
  ∧ strings_HasPrefix "../etc/passwd" ".." = true
  ∧ ∃ err, Directory_WriteFile (NewDirectory "/out") "../etc/passwd" "root::0:0"
             {["/out" := IsDir]} = (Some err, {["/out" := IsDir]})
           ∧ errors_Is err ErrIllegalDir = true.
Proof.
  split; [vm_compute; reflexivity|]. split; [vm_compute; reflexivity|].
  apply (WriteFile_rejects_escape (NewDirectory "/out") "../etc/passwd"
           "root::0:0" {["/out" := IsDir]} "../etc/passwd");
    vm_compute; reflexivity.
Defined.

Lemma dumpOne_stores_the_conversation_witness :
  ∃ w', dumpOne (λ _ cnv, Ok cnv) (λ cnv, Ok ("{" +:+ cnv +:+ "}"))
          (λ cnv, Ok cnv) sample_dump (NewDirectory "/out") () "C1"
          (sess_Dump (sess sample_dump))
          {| disk := (∅ : gmap string Node); logged := [] |}
        = (None, w')
    ∧ disk w' !! "/out/C1.json" = Some (IsFile "{C1}").
Proof.
  set (w := {| disk := (∅ : gmap string Node); logged := [] |}).
  exists (dumpOne (λ _ cnv, Ok cnv) (λ cnv, Ok ("{" +:+ cnv +:+ "}"))
            (λ cnv, Ok cnv) sample_dump (NewDirectory "/out") () "C1"
            (sess_Dump (sess sample_dump)) w).2.
  split; [vm_compute; reflexivity|].
  destruct (dumpOne_stores_the_conversation (λ _ cnv, Ok cnv)
              (λ cnv, Ok ("{" +:+ cnv +:+ "}")) (λ cnv, Ok cnv)
              sample_dump (NewDirectory "/out") () "C1"
              (sess_Dump (sess sample_dump)) w
              (dumpOne (λ _ cnv, Ok cnv) (λ cnv, Ok ("{" +:+ cnv +:+ "}"))
                 (λ cnv, Ok cnv) sample_dump (NewDirectory "/out") () "C1"
                 (sess_Dump (sess sample_dump)) w).2)
    as (cnv & name & data & Hfn & Hname & Hdata & Hjson).
  { vm_compute. reflexivity. }
  vm_compute in Hfn. injection Hfn as ?. subst cnv.
  vm_compute in Hname. injection Hname as ?. subst name.
  vm_compute in Hdata. injection Hdata as ?. subst data.
  exact (proj1 Hjson).
Defined.

Lemma List_truncates_the_output_witness :
  Output_Filename (mkListParams "users.txt" true false true) ≠ "-"
  ∧ os_Stat "users.txt" {["users.txt" := IsFile "U0 U1"]} = Ok (IsFile "U0 U1")
  ∧ os_Stat (filepath_Dir "users.txt") {["users.txt" := IsFile "U0 U1"]} = Ok IsDir
  ∧ (List sample_json sample_text (mkListParams "users.txt" true false true)
       sample_session
       {| con_disk := {["users.txt" := IsFile "U0 U1"]}; con_stdout := "";
          con_log := [] |}).1
    = Some (errors_New "users: rate limited")
  ∧ con_disk
      (List sample_json sample_text (mkListParams "users.txt" true false true)
         sample_session
         {| con_disk := {["users.txt" := IsFile "U0 U1"]}; con_stdout := "";
            con_log := [] |}).2
    = <["users.txt" := IsFile ""]> {["users.txt" := IsFile "U0 U1"]}.
Proof.
  split; [discriminate|]. split; [vm_compute; reflexivity|].
  split; [vm_compute; reflexivity|].
  destruct (List_truncates_the_output sample_json sample_text
              (mkListParams "users.txt" true false true) sample_session
              {| con_disk := {["users.txt" := IsFile "U0 U1"]}; con_stdout := "";
                 con_log := [] |} "U0 U1")
    as (Hret & Hdisk & _).
  - discriminate.
  - vm_compute. reflexivity.
  - vm_compute. reflexivity.
  - split; [exact Hret|exact Hdisk].
Defined.

Lemma List_to_stdout_witness :
  Output_Filename (mkListParams "-" false true true) = "-"
  ∧ (List sample_json sample_text (mkListParams "-" false true true)
       sample_session
       {| con_disk := {["-" := IsFile "kept"]}; con_stdout := "> ";
          con_log := [] |}).1
    = None
  ∧ con_disk
      (List sample_json sample_text (mkListParams "-" false true true)
         sample_session
         {| con_disk := {["-" := IsFile "kept"]}; con_stdout := "> ";
            con_log := [] |}).2
    = {["-" := IsFile "kept"]}
  ∧ con_stdout
      (List sample_json sample_text (mkListParams "-" false true true)
         sample_session
         {| con_disk := {["-" := IsFile "kept"]}; con_stdout := "> ";
            con_log := [] |}).2
    = "> C1,C2".
Proof.
  split; [reflexivity|].
  destruct (List_to_stdout sample_json sample_text
              (mkListParams "-" false true true) sample_session
              {| con_disk := {["-" := IsFile "kept"]}; con_stdout := "> ";
                 con_log := [] |} eq_refl) as (Hret & Hdisk & Hout).
  split; [exact Hret|]. split; [exact Hdisk|exact Hout].
Defined.

Lemma Create_and_WriteFile_stay_under_the_root_witness :
  filepath_Clean (dir (NewDirectory "/out")) ≠ "."
  ∧ ((∃ f, (Directory_Create (NewDirectory "/out") "a/../b/c.json" ∅).1 = Ok f)
     ∨ (Directory_Create (NewDirectory "/out") "a/../b/c.json" ∅).2 ≠ ∅
     ∨ (Directory_WriteFile (NewDirectory "/out") "a/../b/c.json" "{}" ∅).1 = None
     ∨ (Directory_WriteFile (NewDirectory "/out") "a/../b/c.json" "{}" ∅).2 ≠ ∅)
  ∧ rel_elements (filepath_Clean "/out")
      `prefix_of` rel_elements
                    (filepath_Clean (filepath_Join "/out" "a/../b/c.json")).
Proof.
  split; [vm_compute; discriminate|].
  split; [left; eexists; vm_compute; reflexivity|].
  apply (Create_and_WriteFile_stay_under_the_root (NewDirectory "/out")
           "a/../b/c.json" "{}" ∅).
  - vm_compute. discriminate.
  - left. eexists. vm_compute. reflexivity.
Defined.

Lemma indexRecords_scans_from_position_witness :
  locate (frames {| frames := recorded sample_log; pos := 120 |})
    (pos {| frames := recorded sample_log; pos := 120 |})
  = Some (drop 1 (recorded sample_log))
  ∧ (indexRecords Event_ID {| frames := recorded sample_log; pos := 120 |}).1
    = (indexRecords Event_ID (open (drop 1 (recorded sample_log)))).1.
Proof.
  split; [vm_compute; reflexivity|].
  apply (indexRecords_scans_from_position Event_ID
           {| frames := recorded sample_log; pos := 120 |}).
  vm_compute. reflexivity.
Defined.
